(** * A quadtree over axis-aligned rectangles: model of [quadtree.js]

    The JavaScript classes [Node] and [QUAD] are embedded as Rocq modules of
    the same names.  Numbers that carry geometry ([x], [y], [w], [h]) are
    rationals: the arithmetic of the source is taken without rounding, and
    the halving [w / 2] of [divide] is exact; the counters ([depth],
    [maxChildren], [maxDepth]) are integers.  Methods mutate
    [this]; here every method takes the state of [this] and returns the
    state after the call.  A method that can throw (reading a missing
    [this.nodes[i]] and calling a method on it) returns [None].  For
    callbacks that reach the tree while [retrieve] runs, [retrieve] is
    modelled a second time, in module [Heap], on nodes that are objects in
    a heap. *)

From Stdlib Require Import List ZArith QArith Lia Lqa Bool Permutation Arith.
Import ListNotations.

(** ** Constants of the source *)

Definition TOP_LEFT : nat := 0.
Definition TOP_RIGHT : nat := 1.
Definition BOTTOM_LEFT : nat := 2.
Definition BOTTOM_RIGHT : nat := 3.
Definition PARENT : nat := 4.

(** ** JavaScript operators used by the source *)

(** [a < b] and [a >= b] on numbers. *)
Definition num_lt (a b : Q) : bool := negb (Qle_bool b a).
Definition num_ge (a b : Q) : bool := Qle_bool b a.

(** [arr.forEach(f)], the effect of [f] threaded through a state. *)
Definition forEach {A St : Type} (arr : list A) (f : A -> St -> St) (st : St) : St :=
  fold_left (fun acc el => f el acc) arr st.

(** Replacing the element at index [i]; leaves a list that has no index [i]
    as it is (the model never writes past the end: [store] is only used
    after [nth_error] succeeded at the same index). *)
Fixpoint store {A : Type} (i : nat) (v : A) (arr : list A) : list A :=
  match arr, i with
  | [], _ => []
  | _ :: rest, O => v :: rest
  | a :: rest, S j => a :: store j v rest
  end.

(** [v || d] on an optional number: [undefined] and [0] are falsy. *)
Definition or_default (v : option Z) (d : Z) : Z :=
  match v with
  | Some n => if (n =? 0)%Z then d else n
  | None => d
  end.

(** ** Items: any object with numeric [x], [y], [w], [h] *)

Module Item.
Record t : Type := mk { x : Q; y : Q; w : Q; h : Q }.

Definition eq_dec (a b : t) : {a = b} + {a <> b}.
Proof.
  destruct a as [ax ay aw ah], b as [bx by_ bw bh].
  assert (Qd : forall p q : Q, {p = q} + {p <> q}).
  { intros [pn pd] [qn qd].
    destruct (Z.eq_dec pn qn); [| right; congruence].
    destruct (Pos.eq_dec pd qd); [left | right]; congruence. }
  destruct (Qd ax bx); [| right; congruence].
  destruct (Qd ay by_); [| right; congruence].
  destruct (Qd aw bw); [| right; congruence].
  destruct (Qd ah bh); [left | right]; congruence.
Defined.
End Item.

(** ** class Node *)

Module Node.

#[local] Unset Elimination Schemes.

Inductive t : Type := mk {
  items : list Item.t;
  nodes : list t;
  maxChildren : Z;
  maxDepth : Z;
  x : Q;
  y : Q;
  w : Q;
  h : Q;
  depth : Z
}.

#[local] Set Elimination Schemes.

(** [constructor(x, y, w, h, depth, maxChildren, maxDepth)] *)
Definition new (x y w h : Q) (depth maxChildren maxDepth : Z) : t :=
  mk [] [] maxChildren maxDepth x y w h depth.

(** Assignments to [this.items] and [this.nodes]. *)
Definition set_items (this : t) (its : list Item.t) : t :=
  mk its (nodes this) (maxChildren this) (maxDepth this)
     (x this) (y this) (w this) (h this) (depth this).

Definition set_nodes (this : t) (ns : list t) : t :=
  mk (items this) ns (maxChildren this) (maxDepth this)
     (x this) (y this) (w this) (h this) (depth this).

(** [this.items.push(item)] *)
Definition push_item (this : t) (item : Item.t) : t :=
  set_items this (items this ++ [item]).

(** [this.nodes.push(node)] *)
Definition push_node (this : t) (node : t) : t :=
  set_nodes this (nodes this ++ [node]).

(** The two midlines [this.x + (this.w / 2)] and [this.y + (this.h / 2)]. *)
Definition midX (this : t) : Q := x this + w this / 2.
Definition midY (this : t) : Q := y this + h this / 2.

(** [findInsertNode(item)] *)
Definition findInsertNode (this : t) (item : Item.t) : nat :=
  if num_lt (Item.x item + Item.w item) (x this + w this / 2) then
    if num_lt (Item.y item + Item.h item) (y this + h this / 2) then TOP_LEFT
    else if num_ge (Item.y item) (y this + h this / 2) then BOTTOM_LEFT
    else PARENT
  else if num_ge (Item.x item) (x this + w this / 2) then
    if num_lt (Item.y item + Item.h item) (y this + h this / 2) then TOP_RIGHT
    else if num_ge (Item.y item) (y this + h this / 2) then BOTTOM_RIGHT
    else PARENT
  else PARENT.

(** [findOverlappingNodes(item, callback)]: the callback is run, in this
    order, for top-left, bottom-left, top-right and bottom-right. *)
Definition findOverlappingNodes {St : Type} (this : t) (item : Item.t)
    (callback : nat -> St -> St) (st : St) : St :=
  let st :=
    if num_lt (Item.x item) (x this + w this / 2) then
      let st :=
        if num_lt (Item.y item) (y this + h this / 2)
        then callback TOP_LEFT st else st in
      if num_ge (Item.y item + Item.h item) (y this + h this / 2)
      then callback BOTTOM_LEFT st else st
    else st in
  if num_ge (Item.x item + Item.w item) (x this + w this / 2) then
    let st :=
      if num_lt (Item.y item) (y this + h this / 2)
      then callback TOP_RIGHT st else st in
    if num_ge (Item.y item + Item.h item) (y this + h this / 2)
    then callback BOTTOM_RIGHT st else st
  else st.

(** [divide()], with the method it calls on [this] for every old item
    passed in as [insert_] (the recursion is tied in [insert]). *)
Definition divide (insert_ : t -> Item.t -> option t) (this : t) : option t :=
  let childrenDepth := (depth this + 1)%Z in
  let width := w this / 2 in
  let height := h this / 2 in
  let this := push_node this
    (new (x this) (y this) width height childrenDepth
         (maxChildren this) (maxDepth this)) in
  let this := push_node this
    (new (x this + width) (y this) width height childrenDepth
         (maxChildren this) (maxDepth this)) in
  let this := push_node this
    (new (x this) (y this + height) width height childrenDepth
         (maxChildren this) (maxDepth this)) in
  let this := push_node this
    (new (x this + width) (y this + height) width height childrenDepth
         (maxChildren this) (maxDepth this)) in
  let oldChildren := items this in
  let this := set_items this [] in
  forEach oldChildren
    (fun el st => match st with
                  | Some this => insert_ this el
                  | None => None
                  end)
    (Some this).

(** [insert(item)].  The recursion through [divide] is not structural, so
    the function is defined on a number of nested calls it may make;
    [None] is returned when that number is used up, and when
    [this.nodes[i]] does not exist. *)
Fixpoint insert (fuel : nat) (this : t) (item : Item.t) : option t :=
  match fuel with
  | O => None
  | S fuel' =>
    match nodes this with
    | _ :: _ =>
      let i := findInsertNode this item in
      if Nat.eqb i PARENT then Some (push_item this item)
      else
        match nth_error (nodes this) i with
        | Some child =>
          match insert fuel' child item with
          | Some child' => Some (set_nodes this (store i child' (nodes this)))
          | None => None
          end
        | None => None
        end
    | [] =>
      let this := push_item this item in
      if ((Z.of_nat (length (items this)) >? maxChildren this)%Z
          && (depth this <? maxDepth this)%Z)%bool
      then divide (insert fuel') this
      else Some this
    end
  end.

Section Retrieve.
(** The caller's world [S] that the callback acts on, and the optional
    receiver [instance] of type [I]. *)
Variables I S : Type.
Variable callback : option I -> Item.t -> S -> S.
Variable instance : option I.

(** [retrieve(item, callback, instance)]: returns the state of [this]
    after the call and the caller's world.  The recursive calls on the
    children are taken on the children as they are at entry; each is
    run at most once, on the child [findOverlappingNodes] names. *)
Fixpoint retrieve (this : t) (item : Item.t) (s : S) {struct this}
    : option (t * S) :=
  let s := forEach (items this)
    (fun el s => match instance with
                 | Some r => callback (Some r) el s
                 | None => callback None el s
                 end) s in
  match nodes this with
  | _ :: _ =>
    let sub := map (fun child => retrieve child item) (nodes this) in
    findOverlappingNodes this item
      (fun dir st =>
         match st with
         | Some (this, s) =>
           match nth_error sub dir with
           | Some run =>
             match run s with
             | Some (child', s') =>
               Some (set_nodes this (store dir child' (nodes this)), s')
             | None => None
             end
           | None => None
           end
         | None => None
         end)
      (Some (this, s))
  | [] => Some (this, s)
  end.
End Retrieve.

Arguments retrieve {I S} callback instance this item s.

(** [clear()]: the state of [this] after the call, and the states, after
    the call, of the nodes that were below it (they are no longer
    referenced by [this]). *)
Fixpoint clear (this : t) : t * list t :=
  let below := map clear (nodes this) in
  let this := set_items this [] in
  let this := set_nodes this [] in
  (this, flat_map (fun r => fst r :: snd r) below).

(** [getNodes()]: the subnodes, or [false]. *)
Definition getNodes (this : t) : option (list t) :=
  match nodes this with
  | _ :: _ => Some (nodes this)
  | [] => None
  end.

End Node.

(** ** class QUAD *)

Module QUAD.

(** The [args] object of the constructor. *)
Record Args : Type := mkArgs {
  x : Q; y : Q; w : Q; h : Q;
  maxChildren : option Z;
  maxDepth : option Z
}.

Record t : Type := mk { root : Node.t }.

(** Reading a field of [args] that holds a number. *)
Definition number (v : option Z) : Z :=
  match v with
  | Some n => n
  | None => 0
  end.

(** [constructor(_args)]: returns the state of the caller's object after
    the call ([args] is an alias of it) and the new index. *)
Definition constructor (_args : Args) : Args * t :=
  let args := _args in
  let args := mkArgs (x args) (y args) (w args) (h args)
                     (Some (or_default (maxChildren args) 2)) (maxDepth args) in
  let args := mkArgs (x args) (y args) (w args) (h args)
                     (maxChildren args) (Some (or_default (maxDepth args) 4)) in
  (args,
   mk (Node.new (x args) (y args) (w args) (h args) 0
                (number (maxChildren args)) (number (maxDepth args)))).

(** The argument of [insert]: a single item or an array of items. *)
Inductive ItemOrArray : Type :=
| Single (item : Item.t)
| Array (arr : list Item.t).

(** [insert(item)] *)
Definition insert (fuel : nat) (this : t) (item : ItemOrArray) : option t :=
  match item with
  | Array arr =>
    forEach arr
      (fun el st => match st with
                    | Some this =>
                      match Node.insert fuel (root this) el with
                      | Some r => Some (mk r)
                      | None => None
                      end
                    | None => None
                    end)
      (Some this)
  | Single el =>
    match Node.insert fuel (root this) el with
    | Some r => Some (mk r)
    | None => None
    end
  end.

(** [retrieve(selector, callback, instance)] *)
Definition retrieve {I S : Type} (callback : option I -> Item.t -> S -> S)
    (instance : option I) (this : t) (selector : Item.t) (s : S)
    : option (t * S) :=
  match Node.retrieve callback instance (root this) selector s with
  | Some (r, s') => Some (mk r, s')
  | None => None
  end.

(** [clear()] *)
Definition clear (this : t) : t := mk (fst (Node.clear (root this))).

End QUAD.

(** [quad(args)] *)
Definition quad (args : QUAD.Args) : QUAD.Args * QUAD.t := QUAD.constructor args.

(** ** Observations on trees *)

(** Every item stored in the subtree of a node, the node's own first. *)
Fixpoint all_items (n : Node.t) : list Item.t :=
  Node.items n ++ flat_map all_items (Node.nodes n).

(** Every node of the subtree of a node, the node itself first. *)
Fixpoint all_nodes (n : Node.t) : list Node.t :=
  n :: flat_map all_nodes (Node.nodes n).

(** The trees that the constructor and [insert] build: a node has no
    subnodes or four; a node with subnodes is above its depth limit, and its
    subnodes are one level deeper and share its limits. *)
Fixpoint well_formed (n : Node.t) : bool :=
  match Node.nodes n with
  | [] => true
  | _ :: _ =>
    (length (Node.nodes n) =? 4)%nat
    && (Node.depth n <? Node.maxDepth n)%Z
    && forallb (fun c =>
                  (Node.depth c =? Node.depth n + 1)%Z
                  && (Node.maxDepth c =? Node.maxDepth n)%Z
                  && (Node.maxChildren c =? Node.maxChildren n)%Z
                  && well_formed c)
               (Node.nodes n)
  end.

(** A number of nested calls that is enough for [insert] on a well-formed
    tree: two for each level that may still be created below the node, and
    one. *)
Definition enough (n : Node.t) : nat :=
  2 * Z.to_nat (Node.maxDepth n - Node.depth n) + 1.

(** The items [retrieve] hands to its callback, in the order of the calls.
    Shown below to be what [Node.retrieve] does on a well-formed tree. *)
Fixpoint visit (n : Node.t) (q : Item.t) : list Item.t :=
  Node.items n ++
  match Node.nodes n with
  | [] => []
  | _ :: _ =>
    Node.findOverlappingNodes n q
      (fun dir acc => acc ++ nth dir (map (fun c => visit c q) (Node.nodes n)) [])
      []
  end.

(** [retrieve] with a callback that appends what it is given to a list. *)
Definition collect (n : Node.t) (q : Item.t) : option (Node.t * list Item.t) :=
  Node.retrieve (fun (_ : option unit) el acc => acc ++ [el]) None n q [].

(** The items a [retrieve] on [n] visits ([[]] when it throws). *)
Definition results (n : Node.t) (q : Item.t) : list Item.t :=
  match collect n q with
  | Some (_, acc) => acc
  | None => []
  end.

(** [this.insert(el)] for every element of an array, in order. *)
Definition insert_each (fuel : nat) (n : Node.t) (arr : list Item.t) : option Node.t :=
  forEach arr
    (fun el st => match st with
                  | Some this => Node.insert fuel this el
                  | None => None
                  end)
    (Some n).

(** A node as [divide] leaves it before it reinserts the old items. *)
Definition quartered (n : Node.t) : Node.t :=
  Node.mk []
    (Node.nodes n ++
     [Node.new (Node.x n) (Node.y n) (Node.w n / 2) (Node.h n / 2)
               (Node.depth n + 1) (Node.maxChildren n) (Node.maxDepth n);
      Node.new (Node.x n + Node.w n / 2) (Node.y n) (Node.w n / 2) (Node.h n / 2)
               (Node.depth n + 1) (Node.maxChildren n) (Node.maxDepth n);
      Node.new (Node.x n) (Node.y n + Node.h n / 2) (Node.w n / 2) (Node.h n / 2)
               (Node.depth n + 1) (Node.maxChildren n) (Node.maxDepth n);
      Node.new (Node.x n + Node.w n / 2) (Node.y n + Node.h n / 2)
               (Node.w n / 2) (Node.h n / 2)
               (Node.depth n + 1) (Node.maxChildren n) (Node.maxDepth n)])
    (Node.maxChildren n) (Node.maxDepth n)
    (Node.x n) (Node.y n) (Node.w n) (Node.h n) (Node.depth n).

(** The test of [insert] on a leaf, after the push. *)
Definition must_divide (n : Node.t) : bool :=
  ((Z.of_nat (length (Node.items n)) >? Node.maxChildren n)%Z
   && (Node.depth n <? Node.maxDepth n)%Z)%bool.

(** A run of calls, each related to its result by [R]. *)
Inductive chain (R : Node.t -> Item.t -> Node.t -> Prop)
  : Node.t -> list Item.t -> Node.t -> Prop :=
| chain_nil : forall n, chain R n [] n
| chain_cons : forall n el m l n',
    R n el m -> chain R m l n' -> chain R n (el :: l) n'.

(** ** Induction on trees *)

Section NodeInduction.
Variable P : Node.t -> Prop.
Hypothesis step : forall n, Forall P (Node.nodes n) -> P n.

Fixpoint node_induction (n : Node.t) : P n :=
  match n with
  | Node.mk its ns mc md x y w h d =>
    step (Node.mk its ns mc md x y w h d)
      ((fix below (l : list Node.t) : Forall P l :=
          match l with
          | [] => Forall_nil P
          | c :: r => Forall_cons c (node_induction c) (below r)
          end) ns)
  end.
End NodeInduction.

(** What [insert], [retrieve] and [clear] never assign: the limits, the
    region and the depth of a node. *)
Definition frame (n : Node.t) : Z * Z * Q * Q * Q * Q * Z :=
  (Node.maxChildren n, Node.maxDepth n,
   Node.x n, Node.y n, Node.w n, Node.h n, Node.depth n).

(** What a call of [insert] keeps of a node. *)
Definition keeps (n n' : Node.t) : Prop :=
  frame n = frame n'
  /\ (well_formed n = true -> well_formed n' = true)
  /\ (Node.nodes n <> [] -> Node.nodes n' <> []).

(** [retrieve] on [n] with the query [q] returns, leaves [n] as it was and
    has run the callback on the items of [vis], one call for each, in this
    order: whatever the callback, the receiver and the caller's world. *)
Definition visits (n : Node.t) (q : Item.t) (vis : list Item.t) : Prop :=
  forall (I S : Type) (cb : option I -> Item.t -> S -> S) (inst : option I) (s : S),
    Node.retrieve cb inst n q s = Some (n, forEach vis (fun el s => cb inst el s) s).

(** The test under which [findOverlappingNodes] names the direction [dir]. *)
Definition overlaps (n : Node.t) (q : Item.t) (dir : nat) : bool :=
  match dir with
  | 0%nat => num_lt (Item.x q) (Node.midX n) && num_lt (Item.y q) (Node.midY n)
  | 1%nat => num_ge (Item.x q + Item.w q) (Node.midX n) && num_lt (Item.y q) (Node.midY n)
  | 2%nat => num_lt (Item.x q) (Node.midX n) && num_ge (Item.y q + Item.h q) (Node.midY n)
  | 3%nat => num_ge (Item.x q + Item.w q) (Node.midX n)
             && num_ge (Item.y q + Item.h q) (Node.midY n)
  | _ => false
  end.

(** The order of the calls as [retrieve] makes them: the node's own items,
    then what the subnodes named by [findOverlappingNodes] yield, top-left,
    bottom-left, top-right, bottom-right. *)
Definition column_order (n : Node.t) (q : Item.t) : list Item.t :=
  Node.items n ++
  match Node.nodes n with
  | [tl; tr; bl; br] =>
    (if overlaps n q TOP_LEFT then results tl q else [])
    ++ (if overlaps n q BOTTOM_LEFT then results bl q else [])
    ++ (if overlaps n q TOP_RIGHT then results tr q else [])
    ++ (if overlaps n q BOTTOM_RIGHT then results br q else [])
  | _ => []
  end.

(** The order of the calls in the words of the specification: the node's
    own items, then the overlapping subnodes top-left, top-right,
    bottom-left, bottom-right. *)
Definition row_order_of_spec (n : Node.t) (q : Item.t) : list Item.t :=
  Node.items n ++
  match Node.nodes n with
  | [tl; tr; bl; br] =>
    (if overlaps n q TOP_LEFT then results tl q else [])
    ++ (if overlaps n q TOP_RIGHT then results tr q else [])
    ++ (if overlaps n q BOTTOM_LEFT then results bl q else [])
    ++ (if overlaps n q BOTTOM_RIGHT then results br q else [])
  | _ => []
  end.

(** A node without items and subnodes that has the frame of [n]. *)
Definition emptied (n : Node.t) : Node.t :=
  Node.new (Node.x n) (Node.y n) (Node.w n) (Node.h n)
           (Node.depth n) (Node.maxChildren n) (Node.maxDepth n).

(** The values that [v || d] replaces. *)
Definition falsy (v : option Z) : bool :=
  match v with
  | Some n => (n =? 0)%Z
  | None => true
  end.

(** [insert] keeps the frame of the node, and of the items that the node
    classifies [PARENT] it keeps those the node holds and adds the new one. *)
Definition retains (n : Node.t) (item : Item.t) (n' : Node.t) : Prop :=
  frame n = frame n'
  /\ forall s, Node.findInsertNode n s = PARENT ->
       count_occ Item.eq_dec (Node.items n') s =
       (count_occ Item.eq_dec (Node.items n) s + count_occ Item.eq_dec [item] s)%nat.

(** The nodes that occur: the root that the constructor of the index
    builds, what [insert] and [clear] make of a node that occurs, and the
    subnodes of a node that occurs. *)
Inductive occurs : Node.t -> Prop :=
| occurs_root : forall args, occurs (QUAD.root (snd (QUAD.constructor args)))
| occurs_insert : forall fuel n item n',
    occurs n -> Node.insert fuel n item = Some n' -> occurs n'
| occurs_clear : forall n, occurs n -> occurs (fst (Node.clear n))
| occurs_subnode : forall n c, occurs n -> In c (Node.nodes n) -> occurs c.

(** The rectangle of an item crosses the vertical or the horizontal midline
    of a node. *)
Definition straddles (n : Node.t) (s : Item.t) : Prop :=
  (Item.x s < Node.midX n /\ Node.midX n < Item.x s + Item.w s)
  \/ (Item.y s < Node.midY n /\ Node.midY n < Item.y s + Item.h s).

(** ** Invariants of the trees that are built *)

(** [P] holds of a node and of every node below it. *)
Fixpoint everywhere (P : Node.t -> Prop) (n : Node.t) : Prop :=
  P n
  /\ (fix below (l : list Node.t) : Prop :=
        match l with
        | [] => True
        | c :: r => everywhere P c /\ below r
        end) (Node.nodes n).

(** A node with subnodes holds only items that it classifies [PARENT], and
    the items held in or below its subnode [i] are those it classifies
    [i]. *)
Definition sorted_here (n : Node.t) : Prop :=
  Node.nodes n <> [] ->
  (forall s, In s (Node.items n) -> Node.findInsertNode n s = PARENT)
  /\ forall i c s, nth_error (Node.nodes n) i = Some c -> In s (all_items c) ->
       Node.findInsertNode n s = i.

(** A leaf that may still be divided holds no more than [maxChildren]
    items (none, when [maxChildren] is negative). *)
Definition capped_here (n : Node.t) : Prop :=
  Node.nodes n = [] -> (Node.depth n < Node.maxDepth n)%Z ->
  (Z.of_nat (length (Node.items n)) <= Z.max 0 (Node.maxChildren n))%Z.

(** The four nodes that [divide] creates for a node. *)
Definition quadrants (n : Node.t) : list Node.t :=
  [Node.new (Node.x n) (Node.y n) (Node.w n / 2) (Node.h n / 2)
            (Node.depth n + 1) (Node.maxChildren n) (Node.maxDepth n);
   Node.new (Node.x n + Node.w n / 2) (Node.y n) (Node.w n / 2) (Node.h n / 2)
            (Node.depth n + 1) (Node.maxChildren n) (Node.maxDepth n);
   Node.new (Node.x n) (Node.y n + Node.h n / 2) (Node.w n / 2) (Node.h n / 2)
            (Node.depth n + 1) (Node.maxChildren n) (Node.maxDepth n);
   Node.new (Node.x n + Node.w n / 2) (Node.y n + Node.h n / 2)
            (Node.w n / 2) (Node.h n / 2)
            (Node.depth n + 1) (Node.maxChildren n) (Node.maxDepth n)].

(** The subnodes of a node, if it has any, have the regions, the depth and
    the limits that [divide] gives them. *)
Definition tiled_here (n : Node.t) : Prop :=
  Node.nodes n = [] \/ map emptied (Node.nodes n) = quadrants n.

(** The rectangles of two items have a point in common (their borders
    included). *)
Definition intersects (s q : Item.t) : bool :=
  num_ge (Item.x s + Item.w s) (Item.x q)
  && num_ge (Item.x q + Item.w q) (Item.x s)
  && num_ge (Item.y s + Item.h s) (Item.y q)
  && num_ge (Item.y q + Item.h q) (Item.y s).

(** The directions [findOverlappingNodes] runs its callback for, in the
    order of the calls. *)
Definition directions (n : Node.t) (q : Item.t) : list nat :=
  Node.findOverlappingNodes n q (fun dir acc => acc ++ [dir]) [].

(** The rectangle of an item, of width and height that are not negative,
    lies in the rectangle [(X, Y, W, H)]: the comparisons are those of the
    sums as they are computed. *)
Definition inside (X Y W H : Q) (s : Item.t) : bool :=
  num_ge (Item.w s) 0 && num_ge (Item.h s) 0
  && num_ge (Item.x s) X && num_ge (X + W) (Item.x s + Item.w s)
  && num_ge (Item.y s) Y && num_ge (Y + H) (Item.y s + Item.h s).

(** [l1] is [l2] with some of its elements left out: the elements of [l1]
    are in the order they have in [l2]. *)
Inductive subsequence {A : Type} : list A -> list A -> Prop :=
| subsequence_nil : subsequence [] []
| subsequence_skip : forall l1 l2 a, subsequence l1 l2 -> subsequence l1 (a :: l2)
| subsequence_take : forall l1 l2 a, subsequence l1 l2 -> subsequence (a :: l1) (a :: l2).

(** The number of levels of a tree. *)
Fixpoint height (n : Node.t) : nat :=
  S (list_max (map height (Node.nodes n))).

(** ** The tree as objects that a callback can reach

    [Node.retrieve] above gives the callback a world of its own.  In the
    source the callback is code of the caller that runs while [retrieve]
    reads [this.items] and [this.nodes], and that can call [insert] or
    [clear] on the same tree.  Here the nodes are objects in a heap, the
    [items] of a node is a reference to an array in the heap, and the
    callback acts on the heap and on the caller's own state. *)

Module Heap.

(** A [Node] object: [items] is the address of the array [this.items],
    [nodes] holds the addresses of the subnodes. *)
Record object : Type := mkObject {
  items : nat;
  nodes : list nat;
  maxChildren : Z;
  maxDepth : Z;
  x : Q;
  y : Q;
  w : Q;
  h : Q;
  depth : Z
}.

Record heap : Type := mkHeap {
  objects : list object;
  arrays : list (list Item.t)
}.

(** The elements of the array at an address. *)
Definition array_at (arr : nat) (hp : heap) : list Item.t :=
  match nth_error (arrays hp) arr with
  | Some l => l
  | None => []
  end.

Section Retrieve.
Variables I St : Type.
Variable callback : option I -> Item.t -> heap * St -> heap * St.
Variable instance : option I.

(** Reading a property of [this]: the object as it is now. *)
Definition reading (this : nat) (wd : heap * St)
    (k : object -> option (heap * St)) : option (heap * St) :=
  match nth_error (objects (fst wd)) this with
  | Some o => k o
  | None => None
  end.

(** The statements after one that may have thrown. *)
Definition and_then (r : option (heap * St))
    (k : heap * St -> option (heap * St)) : option (heap * St) :=
  match r with
  | Some wd => k wd
  | None => None
  end.

(** [arr.forEach(el => ...)] on the array at [arr]: the number of rounds
    is the length at the start, the element of a round is read when the
    round begins, and an index that is no longer in the array is passed
    over. *)
Fixpoint forEach_live (arr i rounds : nat) (wd : heap * St) : heap * St :=
  match rounds with
  | O => wd
  | S rounds' =>
    forEach_live arr (S i) rounds'
      (match nth_error (array_at arr (fst wd)) i with
       | Some el =>
         match instance with
         | Some r => callback (Some r) el wd
         | None => callback None el wd
         end
       | None => wd
       end)
  end.

(** [findOverlappingNodes(item, callback)], every test on [this] as it is
    when the test is made. *)
Definition findOverlappingNodes (this : nat) (item : Item.t)
    (k : nat -> heap * St -> option (heap * St)) (wd : heap * St)
    : option (heap * St) :=
  and_then
    (reading this wd (fun o =>
       if num_lt (Item.x item) (x o + w o / 2) then
         and_then
           (reading this wd (fun o =>
              if num_lt (Item.y item) (y o + h o / 2)
              then k TOP_LEFT wd else Some wd))
           (fun wd =>
              reading this wd (fun o =>
                if num_ge (Item.y item + Item.h item) (y o + h o / 2)
                then k BOTTOM_LEFT wd else Some wd))
       else Some wd))
    (fun wd =>
       reading this wd (fun o =>
         if num_ge (Item.x item + Item.w item) (x o + w o / 2) then
           and_then
             (reading this wd (fun o =>
                if num_lt (Item.y item) (y o + h o / 2)
                then k TOP_RIGHT wd else Some wd))
             (fun wd =>
                reading this wd (fun o =>
                  if num_ge (Item.y item + Item.h item) (y o + h o / 2)
                  then k BOTTOM_RIGHT wd else Some wd))
         else Some wd)).

(** [retrieve(item, callback, instance)] on the object at [this].  [None]
    is returned when the number of nested calls is used up and when
    [this.nodes[dir]] does not exist. *)
Fixpoint retrieve (fuel : nat) (this : nat) (item : Item.t) (wd : heap * St)
    : option (heap * St) :=
  match fuel with
  | O => None
  | S fuel' =>
    reading this wd (fun o =>
      let arr := items o in
      let wd := forEach_live arr 0 (length (array_at arr (fst wd))) wd in
      reading this wd (fun o =>
        match nodes o with
        | _ :: _ =>
          findOverlappingNodes this item
            (fun dir wd =>
               reading this wd (fun o =>
                 match nth_error (nodes o) dir with
                 | Some child => retrieve fuel' child item wd
                 | None => None
                 end))
            wd
        | [] => Some wd
        end))
  end.

(** [QUAD.retrieve(selector, callback, instance)], for the index whose root
    is the object at [root]. *)
Definition quad_retrieve (fuel : nat) (root : nat) (selector : Item.t)
    (wd : heap * St) : option (heap * St) :=
  retrieve fuel root selector wd.
End Retrieve.

Arguments reading {St} this wd k.
Arguments and_then {St} r k.
Arguments forEach_live {I St} callback instance arr i rounds wd.
Arguments findOverlappingNodes {St} this item k wd.
Arguments retrieve {I St} callback instance fuel this item wd.
Arguments quad_retrieve {I St} callback instance fuel root selector wd.

(** [clear()] on the object at [this]: the subnodes are cleared, then the
    array of the items is emptied in place and the subnodes are dropped. *)
Fixpoint clear (fuel : nat) (this : nat) (hp : heap) : option heap :=
  match fuel with
  | O => None
  | S fuel' =>
    match nth_error (objects hp) this with
    | Some o =>
      match forEach (nodes o)
              (fun node st => match st with
                              | Some hp => clear fuel' node hp
                              | None => None
                              end)
              (Some hp) with
      | Some hp =>
        match nth_error (objects hp) this with
        | Some o =>
          let hp := mkHeap (objects hp) (store (items o) [] (arrays hp)) in
          Some (mkHeap
                  (store this
                     (mkObject (items o) [] (maxChildren o) (maxDepth o)
                               (x o) (y o) (w o) (h o) (depth o))
                     (objects hp))
                  (arrays hp))
        | None => None
        end
      | None => None
      end
    | None => None
    end
  end.

(** The objects of a tree, put into a heap after those that are there: the
    address of the root of the tree and the heap. *)
Fixpoint alloc (n : Node.t) (hp : heap) : nat * heap :=
  let '(addrs, hp) :=
    (fix each (cs : list Node.t) (hp : heap) : list nat * heap :=
       match cs with
       | [] => ([], hp)
       | c :: r =>
         let '(a, hp) := alloc c hp in
         let '(rest, hp) := each r hp in
         (a :: rest, hp)
       end) (Node.nodes n) hp in
  (length (objects hp),
   mkHeap
     (objects hp ++
      [mkObject (length (arrays hp)) addrs (Node.maxChildren n) (Node.maxDepth n)
                (Node.x n) (Node.y n) (Node.w n) (Node.h n) (Node.depth n)])
     (arrays hp ++ [Node.items n])).

(** The object at [a] and the objects it refers to are the tree [n]. *)
Fixpoint represents (hp : heap) (n : Node.t) (a : nat) : Prop :=
  match nth_error (objects hp) a with
  | Some o =>
    nth_error (arrays hp) (items o) = Some (Node.items n)
    /\ x o = Node.x n /\ y o = Node.y n /\ w o = Node.w n /\ h o = Node.h n
    /\ (fix each (cs : list Node.t) (addrs : list nat) : Prop :=
          match cs, addrs with
          | [], [] => True
          | c :: cs', b :: addrs' => represents hp c b /\ each cs' addrs'
          | _, _ => False
          end) (Node.nodes n) (nodes o)
  | None => False
  end.

End Heap.

(** A tree with items at the root and in three quadrants, and the heap that
    holds its objects. *)
Definition sample_tree : Node.t :=
  Eval vm_compute in
    match insert_each 9 (Node.new 0 0 100 100 0 2 4)
            [Item.mk 45 60 10 10; Item.mk 0 60 10 10; Item.mk 60 0 10 10;
             Item.mk 45 10 20 5; Item.mk 5 5 5 5] with
    | Some t => t
    | None => Node.new 0 0 100 100 0 2 4
    end.

Definition sample_heap : Heap.heap :=
  Eval vm_compute in snd (Heap.alloc sample_tree (Heap.mkHeap [] [])).

Definition sample_root : nat :=
  Eval vm_compute in fst (Heap.alloc sample_tree (Heap.mkHeap [] [])).

(** A callback that appends the item to the caller's list and leaves the
    heap alone, and one that appends the item and calls [clear()] on the
    object at [root]. *)
Definition collecting (_ : option unit) (el : Item.t)
    (wd : Heap.heap * list Item.t) : Heap.heap * list Item.t :=
  (fst wd, snd wd ++ [el]).

Definition clearing (root : nat) (_ : option unit) (el : Item.t)
    (wd : Heap.heap * list Item.t) : Heap.heap * list Item.t :=
  match Heap.clear 5 root (fst wd) with
  | Some hp => (hp, snd wd ++ [el])
  | None => wd
  end.

(** ** Comparisons *)

Lemma half_eq (a : Q) : a / 2 == a * (1 # 2).
Proof. reflexivity. Qed.

Lemma num_lt_true (a b : Q) : num_lt a b = true <-> a < b.
Proof.
  unfold num_lt. rewrite negb_true_iff, <- not_true_iff_false, Qle_bool_iff.
  split; [apply Qnot_le_lt | apply Qlt_not_le].
Qed.

Lemma num_lt_false (a b : Q) : num_lt a b = false <-> b <= a.
Proof.
  unfold num_lt. rewrite negb_false_iff. apply Qle_bool_iff.
Qed.

Lemma num_ge_true (a b : Q) : num_ge a b = true <-> b <= a.
Proof. unfold num_ge. apply Qle_bool_iff. Qed.

Lemma num_ge_false (a b : Q) : num_ge a b = false <-> a < b.
Proof.
  unfold num_ge. rewrite <- not_true_iff_false, Qle_bool_iff.
  split; [apply Qnot_le_lt | apply Qlt_not_le].
Qed.

(** Case analysis on a comparison, with the outcome as a fact about the
    order of the rationals. *)
Ltac num_case b :=
  let E := fresh "E" in
  destruct b eqn:E;
  [ first [apply num_lt_true in E | apply num_ge_true in E]
  | first [apply num_lt_false in E | apply num_ge_false in E] ].

(** ** Arrays *)

Lemma forEach_none (A B : Type) (f : B -> A -> option B) (l : list A) :
  forEach l (fun el st => match st with Some b => f b el | None => None end) None = None.
Proof. induction l as [| a l IH]; simpl; auto. Qed.

Lemma store_split (A : Type) (l : list A) (i : nat) (c c' : A) :
  nth_error l i = Some c ->
  exists l1 l2, l = l1 ++ c :: l2 /\ store i c' l = l1 ++ c' :: l2 /\ length l1 = i.
Proof.
  revert i. induction l as [| a l IH]; intros [| i] Hn; simpl in *; try discriminate.
  - injection Hn as ->. exists [], l. auto.
  - destruct (IH i Hn) as (l1 & l2 & -> & -> & <-).
    exists (a :: l1), l2. auto.
Qed.

Lemma store_same (A : Type) (l : list A) (i : nat) (c : A) :
  nth_error l i = Some c -> store i c l = l.
Proof.
  intros Hn. destruct (store_split _ l i c c Hn) as (l1 & l2 & E & E' & _).
  rewrite E' . symmetry. exact E.
Qed.

Lemma forEach_cons (A St : Type) (f : A -> St -> St) (a : A) (l : list A) (st : St) :
  forEach (a :: l) f st = forEach l f (f a st).
Proof. reflexivity. Qed.

Lemma forEach_app (A St : Type) (f : A -> St -> St) (l1 l2 : list A) (st : St) :
  forEach (l1 ++ l2) f st = forEach l2 f (forEach l1 f st).
Proof. unfold forEach. apply fold_left_app. Qed.

Lemma forEach_chain (R : Node.t -> Item.t -> Node.t -> Prop)
    (ins : Node.t -> Item.t -> option Node.t) :
  (forall m el r, ins m el = Some r -> R m el r) ->
  forall l n n',
    forEach l (fun el st => match st with Some this => ins this el | None => None end)
            (Some n) = Some n' ->
    chain R n l n'.
Proof.
  intros Hins. induction l as [| a l IH]; intros n n' Hrun.
  - injection Hrun as <-. constructor.
  - rewrite forEach_cons in Hrun. destruct (ins n a) as [m |] eqn:E.
    + apply chain_cons with m; auto.
    + rewrite forEach_none in Hrun. discriminate.
Qed.

Lemma chain_last (R : Node.t -> Item.t -> Node.t -> Prop) l x n n' :
  chain R n (l ++ [x]) n' -> exists m, chain R n l m /\ R m x n'.
Proof.
  revert n. induction l as [| a l IH]; intros n Hc; simpl in Hc.
  - inversion Hc as [| ? ? m ? ? Hr Hrest]; subst.
    inversion Hrest; subst. exists n. split; [constructor | assumption].
  - inversion Hc as [| ? ? m ? ? Hr Hrest]; subst.
    destruct (IH _ Hrest) as (m' & Hc' & Hl).
    exists m'. split; [apply chain_cons with m |]; assumption.
Qed.

(** ** The shape of [divide] and [insert] *)

Lemma divide_quartered (ins : Node.t -> Item.t -> option Node.t) (n : Node.t) :
  Node.divide ins n =
  forEach (Node.items n)
    (fun el st => match st with Some this => ins this el | None => None end)
    (Some (quartered n)).
Proof.
  destruct n as [its ns mc md x y w h d].
  unfold Node.divide, quartered, Node.push_node, Node.set_nodes, Node.set_items.
  cbn [Node.items Node.nodes Node.maxChildren Node.maxDepth
       Node.x Node.y Node.w Node.h Node.depth].
  rewrite <- !app_assoc. reflexivity.
Qed.

Lemma insert_step (fuel : nat) (n : Node.t) (item : Item.t) :
  Node.insert (S fuel) n item =
  match Node.nodes n with
  | _ :: _ =>
    if Nat.eqb (Node.findInsertNode n item) PARENT then Some (Node.push_item n item)
    else match nth_error (Node.nodes n) (Node.findInsertNode n item) with
         | Some c =>
           match Node.insert fuel c item with
           | Some c' =>
             Some (Node.set_nodes n (store (Node.findInsertNode n item) c' (Node.nodes n)))
           | None => None
           end
         | None => None
         end
  | [] =>
    if must_divide (Node.push_item n item)
    then Node.divide (Node.insert fuel) (Node.push_item n item)
    else Some (Node.push_item n item)
  end.
Proof. reflexivity. Qed.

(** Induction on the calls of [insert]: a relation between a node, the item
    and the node after the call holds of every call that returns, when it is
    closed under the four ways [insert] proceeds. *)
Lemma insert_inv (R : Node.t -> Item.t -> Node.t -> Prop) :
  (forall n item,
      Node.nodes n <> [] -> Node.findInsertNode n item = PARENT ->
      R n item (Node.push_item n item)) ->
  (forall n item c c',
      Node.nodes n <> [] -> Node.findInsertNode n item <> PARENT ->
      nth_error (Node.nodes n) (Node.findInsertNode n item) = Some c ->
      R c item c' ->
      R n item
        (Node.set_nodes n (store (Node.findInsertNode n item) c' (Node.nodes n)))) ->
  (forall n item,
      Node.nodes n = [] -> must_divide (Node.push_item n item) = false ->
      R n item (Node.push_item n item)) ->
  (forall n item n',
      Node.nodes n = [] -> must_divide (Node.push_item n item) = true ->
      chain R (quartered (Node.push_item n item)) (Node.items n ++ [item]) n' ->
      R n item n') ->
  forall fuel n item n', Node.insert fuel n item = Some n' -> R n item n'.
Proof.
  intros Hparent Hchild Hleaf Hdivide.
  induction fuel as [| fuel IH]; intros n item n' Hins; [discriminate |].
  rewrite insert_step in Hins.
  destruct (Node.nodes n) as [| c0 cs] eqn:Ens.
  - destruct (must_divide (Node.push_item n item)) eqn:Ed.
    + rewrite divide_quartered in Hins.
      apply Hdivide; auto.
      apply forEach_chain with (ins := Node.insert fuel); auto.
    + injection Hins as <-. apply Hleaf; auto.
  - assert (Hne : Node.nodes n <> []) by (rewrite Ens; discriminate).
    destruct (Nat.eqb (Node.findInsertNode n item) PARENT) eqn:Ep.
    + injection Hins as <-. apply Hparent; auto. apply Nat.eqb_eq; assumption.
    + apply Nat.eqb_neq in Ep. rewrite <- Ens in Hins.
      destruct (nth_error (Node.nodes n) (Node.findInsertNode n item)) as [c |] eqn:En;
        [| discriminate].
      destruct (Node.insert fuel c item) as [c' |] eqn:Ec; [| discriminate].
      injection Hins as <-. apply Hchild with c; auto.
Qed.

Lemma chain_compose (T : Node.t -> Node.t -> Prop) :
  (forall n, T n n) ->
  (forall a b c, T a b -> T b c -> T a c) ->
  forall n l n', chain (fun a _ b => T a b) n l n' -> T n n'.
Proof.
  intros Hrefl Htrans n l n' Hc. induction Hc; eauto.
Qed.

(** ** Well-formed trees *)

Lemma well_formed_step (n : Node.t) :
  well_formed n =
  match Node.nodes n with
  | [] => true
  | _ :: _ =>
    (length (Node.nodes n) =? 4)%nat
    && (Node.depth n <? Node.maxDepth n)%Z
    && forallb (fun c =>
                  (Node.depth c =? Node.depth n + 1)%Z
                  && (Node.maxDepth c =? Node.maxDepth n)%Z
                  && (Node.maxChildren c =? Node.maxChildren n)%Z
                  && well_formed c)
               (Node.nodes n)
  end.
Proof. destruct n; reflexivity. Qed.

Lemma well_formed_internal (n : Node.t) :
  well_formed n = true -> Node.nodes n <> [] ->
  length (Node.nodes n) = 4%nat
  /\ (Node.depth n < Node.maxDepth n)%Z
  /\ forall c, In c (Node.nodes n) ->
       Node.depth c = (Node.depth n + 1)%Z
       /\ Node.maxDepth c = Node.maxDepth n
       /\ Node.maxChildren c = Node.maxChildren n
       /\ well_formed c = true.
Proof.
  intros Hwf Hne. rewrite well_formed_step in Hwf.
  destruct (Node.nodes n) as [| c0 cs] eqn:E; [congruence |].
  apply andb_true_iff in Hwf as [Hwf Hall].
  apply andb_true_iff in Hwf as [Hlen Hd].
  split; [apply Nat.eqb_eq; assumption |].
  split; [apply Z.ltb_lt; assumption |].
  intros c Hc. rewrite forallb_forall in Hall. specialize (Hall c Hc).
  apply andb_true_iff in Hall as [Hall Hw].
  apply andb_true_iff in Hall as [Hall Hmc].
  apply andb_true_iff in Hall as [Hdc Hmd].
  rewrite Z.eqb_eq in Hdc, Hmd, Hmc. auto.
Qed.

Lemma well_formed_build (n : Node.t) :
  length (Node.nodes n) = 4%nat ->
  (Node.depth n < Node.maxDepth n)%Z ->
  (forall c, In c (Node.nodes n) ->
     Node.depth c = (Node.depth n + 1)%Z
     /\ Node.maxDepth c = Node.maxDepth n
     /\ Node.maxChildren c = Node.maxChildren n
     /\ well_formed c = true) ->
  well_formed n = true.
Proof.
  intros Hlen Hd Hall. rewrite well_formed_step.
  destruct (Node.nodes n) as [| c0 cs] eqn:E; [reflexivity |].
  rewrite Hlen. apply Z.ltb_lt in Hd. rewrite Hd.
  change (4 =? 4)%nat with true. cbn [andb].
  apply forallb_forall. intros c Hc.
  destruct (Hall c Hc) as (-> & -> & -> & ->).
  rewrite !Z.eqb_refl. reflexivity.
Qed.

Lemma well_formed_items (n : Node.t) (its : list Item.t) :
  well_formed (Node.set_items n its) = well_formed n.
Proof. destruct n; reflexivity. Qed.

Lemma store_length (A : Type) (i : nat) (v : A) (l : list A) :
  length (store i v l) = length l.
Proof.
  revert i. induction l as [| a l IH]; intros [| i]; simpl; auto.
Qed.

Lemma store_In (A : Type) (i : nat) (v : A) (l : list A) (a : A) :
  In a (store i v l) -> a = v \/ In a l.
Proof.
  revert i. induction l as [| b l IH]; intros [| i]; simpl; auto.
  - intros [-> | H]; auto.
  - intros [-> | H]; auto. destruct (IH _ H); auto.
Qed.

Lemma keeps_refl (n : Node.t) : keeps n n.
Proof. unfold keeps. auto. Qed.

Lemma keeps_trans (a b c : Node.t) : keeps a b -> keeps b c -> keeps a c.
Proof.
  unfold keeps. intros (F1 & W1 & N1) (F2 & W2 & N2).
  split; [congruence | split; auto].
Qed.

Lemma frame_fields (n n' : Node.t) :
  frame n = frame n' ->
  Node.maxChildren n = Node.maxChildren n' /\ Node.maxDepth n = Node.maxDepth n'
  /\ Node.x n = Node.x n' /\ Node.y n = Node.y n'
  /\ Node.w n = Node.w n' /\ Node.h n = Node.h n'
  /\ Node.depth n = Node.depth n'.
Proof. unfold frame. intros H. injection H. auto 10. Qed.

Lemma quartered_well_formed (n : Node.t) :
  Node.nodes n = [] -> (Node.depth n < Node.maxDepth n)%Z ->
  well_formed (quartered n) = true.
Proof.
  intros Hn Hd. apply well_formed_build.
  - unfold quartered. cbn [Node.nodes]. rewrite Hn. reflexivity.
  - exact Hd.
  - unfold quartered. cbn [Node.nodes Node.depth Node.maxDepth Node.maxChildren].
    rewrite Hn. intros c [<- | [<- | [<- | [<- | []]]]]; auto.
Qed.

(** Every call of [insert] that returns keeps the frame of the node, its
    being well-formed and its having subnodes. *)
Lemma insert_keeps (fuel : nat) (n : Node.t) (item : Item.t) (n' : Node.t) :
  Node.insert fuel n item = Some n' -> keeps n n'.
Proof.
  revert fuel n item n'.
  apply (insert_inv (fun n _ n' => keeps n n')).
  - intros n item Hne _. unfold keeps, Node.push_item.
    rewrite well_formed_items. destruct n; auto.
  - intros n item c c' Hne _ Hnth (Fc & Wc & _).
    destruct (store_split _ _ _ c c' Hnth) as (l1 & l2 & E & E' & _).
    split; [destruct n; reflexivity | split].
    + intros Hwf. destruct (well_formed_internal n Hwf Hne) as (Hlen & Hd & Hall).
      apply well_formed_build.
      * destruct n; cbn [Node.nodes Node.set_nodes] in *.
        rewrite store_length. assumption.
      * destruct n; assumption.
      * intros a Ha.
        assert (Ha' : a = c' \/ In a (Node.nodes n)).
        { destruct n; cbn [Node.nodes Node.set_nodes] in *.
          apply store_In in Ha. assumption. }
        assert (Hc : In c (Node.nodes n)) by (eapply nth_error_In; eauto).
        destruct (Hall c Hc) as (Dc & Mc & Cc & Wfc).
        apply frame_fields in Fc. destruct Fc as (F1 & F2 & _ & _ & _ & _ & F7).
        destruct Ha' as [-> | Ha'].
        -- destruct n; cbn [Node.depth Node.maxDepth Node.maxChildren Node.set_nodes] in *.
           rewrite <- F1, <- F2, <- F7. auto.
        -- destruct n; cbn [Node.depth Node.maxDepth Node.maxChildren Node.set_nodes] in *.
           auto.
    + intros _. destruct n; cbn [Node.nodes Node.set_nodes] in *.
      rewrite E'. destruct l1; discriminate.
  - intros n item Hn _. unfold keeps, Node.push_item.
    rewrite well_formed_items. destruct n; auto.
  - intros n item n' Hn Hd Hc.
    apply chain_compose in Hc; [| apply keeps_refl | apply keeps_trans].
    destruct Hc as (F & W & N).
    unfold must_divide in Hd. apply andb_true_iff in Hd as [_ Hd].
    apply Z.ltb_lt in Hd.
    split; [| split].
    + rewrite <- F. destruct n; reflexivity.
    + intros _. apply W. apply quartered_well_formed.
      * destruct n; assumption.
      * exact Hd.
    + congruence.
Qed.

(** ** [insert] returns on well-formed trees *)

Lemma findInsertNode_range (n : Node.t) (item : Item.t) :
  (Node.findInsertNode n item <= 4)%nat.
Proof.
  unfold Node.findInsertNode, TOP_LEFT, TOP_RIGHT, BOTTOM_LEFT, BOTTOM_RIGHT, PARENT.
  repeat match goal with |- context [if ?b then _ else _] => destruct b end; lia.
Qed.

Lemma nth_error_some (A : Type) (l : list A) (i : nat) :
  (i < length l)%nat -> exists a, nth_error l i = Some a.
Proof.
  intros Hi. destruct (nth_error l i) as [a |] eqn:E; [eauto |].
  apply nth_error_None in E. lia.
Qed.

(** On a node with subnodes, one call less is needed than on a leaf. *)
Lemma insert_total_internal (k : nat) :
  (forall n item fuel,
      well_formed n = true ->
      (Z.to_nat (Node.maxDepth n - Node.depth n) <= k)%nat ->
      (2 * k + 1 <= fuel)%nat ->
      exists n', Node.insert fuel n item = Some n') ->
  forall n item fuel,
    well_formed n = true -> Node.nodes n <> [] ->
    (Z.to_nat (Node.maxDepth n - Node.depth n) <= S k)%nat ->
    (2 * k + 2 <= fuel)%nat ->
    exists n', Node.insert fuel n item = Some n'.
Proof.
  intros IH n item fuel Hwf Hne Hk Hfuel.
  destruct fuel as [| fuel]; [lia |].
  rewrite insert_step.
  destruct (well_formed_internal n Hwf Hne) as (Hlen & Hd & Hall).
  destruct (Node.nodes n) as [| c0 cs] eqn:E; [congruence |].
  destruct (Nat.eqb (Node.findInsertNode n item) PARENT) eqn:Ep; [eauto |].
  apply Nat.eqb_neq in Ep.
  assert (Hi : (Node.findInsertNode n item < length (c0 :: cs))%nat).
  { pose proof (findInsertNode_range n item). unfold PARENT in Ep. lia. }
  destruct (nth_error_some _ _ _ Hi) as (c & Hc). rewrite Hc.
  destruct (Hall c (nth_error_In _ _ Hc)) as (Dc & Mc & _ & Wc).
  destruct (IH c item fuel Wc) as (c' & ->); [lia | lia | eauto].
Qed.

Lemma insert_total_depth (k : nat) :
  forall n item fuel,
    well_formed n = true ->
    (Z.to_nat (Node.maxDepth n - Node.depth n) <= k)%nat ->
    (2 * k + 1 <= fuel)%nat ->
    exists n', Node.insert fuel n item = Some n'.
Proof.
  induction k as [| k IH]; intros n item fuel Hwf Hk Hfuel.
  - destruct fuel as [| fuel]; [lia |]. rewrite insert_step.
    destruct (Node.nodes n) as [| c0 cs] eqn:E.
    + unfold must_divide.
      replace (Node.depth (Node.push_item n item) <? Node.maxDepth (Node.push_item n item))%Z
        with false; [rewrite andb_false_r; eauto |].
      symmetry. apply Z.ltb_ge. destruct n; cbn in *. lia.
    + assert (Hne : Node.nodes n <> []) by congruence.
      destruct (well_formed_internal n Hwf Hne) as (_ & Hd & _). lia.
  - pose proof (insert_total_internal k IH) as Hint.
    destruct (Node.nodes n) as [| c0 cs] eqn:E.
    + destruct fuel as [| fuel]; [lia |]. rewrite insert_step, E.
      destruct (must_divide (Node.push_item n item)) eqn:Ed; [| eauto].
      rewrite divide_quartered.
      assert (Hq : well_formed (quartered (Node.push_item n item)) = true).
      { unfold must_divide in Ed. apply andb_true_iff in Ed as [_ Ed].
        apply Z.ltb_lt in Ed. apply quartered_well_formed; [| exact Ed].
        destruct n; assumption. }
      assert (Hqn : Node.nodes (quartered (Node.push_item n item)) <> []).
      { unfold quartered. cbn [Node.nodes]. intros Habs.
        apply app_eq_nil in Habs. destruct Habs; discriminate. }
      assert (Hqf : frame (quartered (Node.push_item n item)) = frame n).
      { destruct n; reflexivity. }
      revert Hq Hqn Hqf.
      generalize (quartered (Node.push_item n item)) as m.
      generalize (Node.items (Node.push_item n item)) as l.
      induction l as [| el l IHl]; intros m Hq Hqn Hqf; [simpl; eauto |].
      rewrite forEach_cons.
      destruct (Hint m el fuel Hq Hqn) as (m' & Hm').
      * apply frame_fields in Hqf. destruct Hqf as (_ & -> & _ & _ & _ & _ & ->). lia.
      * lia.
      * rewrite Hm'. destruct (insert_keeps _ _ _ _ Hm') as (F & W & N).
        apply IHl; auto. congruence.
    + apply Hint; auto; [congruence | lia].
Qed.

(** [enough n] nested calls are enough, and so is any larger number. *)
Lemma insert_total (n : Node.t) (item : Item.t) (fuel : nat) :
  well_formed n = true -> (enough n <= fuel)%nat ->
  exists n', Node.insert fuel n item = Some n'.
Proof.
  intros Hwf Hfuel.
  apply insert_total_depth with (k := Z.to_nat (Node.maxDepth n - Node.depth n)); auto.
Qed.

Lemma enough_frame (n n' : Node.t) : frame n = frame n' -> enough n = enough n'.
Proof.
  intros F. apply frame_fields in F. destruct F as (_ & F2 & _ & _ & _ & _ & F7).
  unfold enough. rewrite F2, F7. reflexivity.
Qed.

Lemma insert_each_chain (R : Node.t -> Item.t -> Node.t -> Prop) (fuel : nat) :
  (forall n item n', Node.insert fuel n item = Some n' -> R n item n') ->
  forall l n n', insert_each fuel n l = Some n' -> chain R n l n'.
Proof.
  intros HR l n n' H. unfold insert_each in H.
  eapply forEach_chain with (ins := Node.insert fuel); eauto.
Qed.

Lemma insert_each_keeps (fuel : nat) (l : list Item.t) (n n' : Node.t) :
  insert_each fuel n l = Some n' -> keeps n n'.
Proof.
  intros H.
  apply (insert_each_chain (fun a _ b => keeps a b)) in H.
  - apply chain_compose in H; [assumption | apply keeps_refl | apply keeps_trans].
  - intros; eapply insert_keeps; eauto.
Qed.

Lemma insert_each_total (l : list Item.t) (n : Node.t) (fuel : nat) :
  well_formed n = true -> (enough n <= fuel)%nat ->
  exists n', insert_each fuel n l = Some n'.
Proof.
  unfold insert_each. revert n.
  induction l as [| el l IH]; intros n Hwf Hfuel; [simpl; eauto |].
  rewrite forEach_cons.
  destruct (insert_total n el fuel Hwf Hfuel) as (m & Hm). rewrite Hm.
  destruct (insert_keeps _ _ _ _ Hm) as (F & W & _).
  apply IH; auto. rewrite <- (enough_frame _ _ F). assumption.
Qed.

Lemma nth_map_some (A B : Type) (f : A -> B) (l : list A) (i : nat) (c : A) (d : B) :
  nth_error l i = Some c -> nth i (map f l) d = f c.
Proof.
  revert i. induction l as [| a l IH]; intros [| i] H; simpl in *; try discriminate.
  - injection H as ->. reflexivity.
  - auto.
Qed.

(** ** The number of nested calls does not matter once it is enough *)

Lemma forEach_mono (ins ins' : Node.t -> Item.t -> option Node.t) :
  (forall m el r, ins m el = Some r -> ins' m el = Some r) ->
  forall l n r,
    forEach l (fun el st => match st with Some this => ins this el | None => None end)
            (Some n) = Some r ->
    forEach l (fun el st => match st with Some this => ins' this el | None => None end)
            (Some n) = Some r.
Proof.
  intros Hmono. induction l as [| el l IH]; intros n r H; [assumption |].
  rewrite forEach_cons in *. destruct (ins n el) as [m |] eqn:E.
  - rewrite (Hmono _ _ _ E). auto.
  - rewrite (forEach_none _ _ ins) in H. discriminate.
Qed.

Lemma insert_fuel_S (fuel : nat) :
  forall n item r,
    Node.insert fuel n item = Some r -> Node.insert (S fuel) n item = Some r.
Proof.
  induction fuel as [| fuel IH]; intros n item r H; [discriminate |].
  rewrite insert_step in H. rewrite insert_step.
  destruct (Node.nodes n) as [| c0 cs].
  - destruct (must_divide (Node.push_item n item)); [| assumption].
    rewrite divide_quartered in *.
    apply forEach_mono with (ins := Node.insert fuel); assumption.
  - destruct (Nat.eqb (Node.findInsertNode n item) PARENT); [assumption |].
    destruct (nth_error (c0 :: cs) (Node.findInsertNode n item)) as [c |];
      [| discriminate].
    destruct (Node.insert fuel c item) as [c' |] eqn:E; [| discriminate].
    rewrite (IH _ _ _ E). assumption.
Qed.

Lemma insert_fuel_mono (fuel fuel' : nat) (n : Node.t) (item : Item.t) (r : Node.t) :
  (fuel <= fuel')%nat ->
  Node.insert fuel n item = Some r -> Node.insert fuel' n item = Some r.
Proof.
  intros Hle H. induction Hle as [| fuel' _ IH]; [assumption |].
  apply insert_fuel_S. assumption.
Qed.

(** The nodes that occur are well-formed. *)
Lemma occurs_well_formed (n : Node.t) : occurs n -> well_formed n = true.
Proof.
  intros Ho. induction Ho as [args | fuel n item n' _ IH Hins | n _ _ | n c _ IH Hc].
  - reflexivity.
  - destruct (insert_keeps _ _ _ _ Hins) as (_ & W & _). auto.
  - destruct n; reflexivity.
  - assert (Hne : Node.nodes n <> []) by (intros E; rewrite E in Hc; destruct Hc).
    destruct (well_formed_internal n IH Hne) as (_ & _ & Hall).
    apply Hall. assumption.
Qed.

(** ** What [retrieve] does *)

Lemma set_nodes_same (n : Node.t) : Node.set_nodes n (Node.nodes n) = n.
Proof. destruct n; reflexivity. Qed.

Lemma retrieve_step (I S : Type) (cb : option I -> Item.t -> S -> S)
    (inst : option I) (n : Node.t) (q : Item.t) (s : S) :
  Node.retrieve cb inst n q s =
  match Node.nodes n with
  | _ :: _ =>
    Node.findOverlappingNodes n q
      (fun dir st =>
         match st with
         | Some (this, s) =>
           match nth_error (map (fun c => Node.retrieve cb inst c q) (Node.nodes n)) dir with
           | Some run =>
             match run s with
             | Some (child', s') =>
               Some (Node.set_nodes this (store dir child' (Node.nodes this)), s')
             | None => None
             end
           | None => None
           end
         | None => None
         end)
      (Some (n, forEach (Node.items n) (fun el s => cb inst el s) s))
  | [] => Some (n, forEach (Node.items n) (fun el s => cb inst el s) s)
  end.
Proof. destruct n, inst; reflexivity. Qed.

Lemma visit_step (n : Node.t) (q : Item.t) :
  visit n q =
  Node.items n ++
  match Node.nodes n with
  | [] => []
  | _ :: _ =>
    Node.findOverlappingNodes n q
      (fun dir acc => acc ++ nth dir (map (fun c => visit c q) (Node.nodes n)) [])
      []
  end.
Proof. destruct n; reflexivity. Qed.

(** The four tests of [findOverlappingNodes], and the directions it names. *)
Lemma findOverlappingNodes_tests (St : Type) (n : Node.t) (q : Item.t)
    (k : nat -> St -> St) (st : St) :
  Node.findOverlappingNodes n q k st =
  let left := num_lt (Item.x q) (Node.midX n) in
  let right := num_ge (Item.x q + Item.w q) (Node.midX n) in
  let top := num_lt (Item.y q) (Node.midY n) in
  let bottom := num_ge (Item.y q + Item.h q) (Node.midY n) in
  let st := if left && top then k TOP_LEFT st else st in
  let st := if left && bottom then k BOTTOM_LEFT st else st in
  let st := if right && top then k TOP_RIGHT st else st in
  if right && bottom then k BOTTOM_RIGHT st else st.
Proof.
  unfold Node.findOverlappingNodes, Node.midX, Node.midY. cbv zeta.
  destruct (num_lt (Item.x q) _), (num_ge (Item.x q + Item.w q) _),
           (num_lt (Item.y q) _), (num_ge (Item.y q + Item.h q) _); reflexivity.
Qed.

Lemma findOverlappingNodes_run (St : Type) (n : Node.t) (q : Item.t)
    (k : nat -> option (Node.t * St) -> option (Node.t * St))
    (g : nat -> St -> St) (m : Node.t) (s : St) :
  (forall dir s, (dir < 4)%nat -> k dir (Some (m, s)) = Some (m, g dir s)) ->
  Node.findOverlappingNodes n q k (Some (m, s)) =
  Some (m, Node.findOverlappingNodes n q g s).
Proof.
  intros Hk. rewrite !findOverlappingNodes_tests. cbv zeta.
  unfold TOP_LEFT, TOP_RIGHT, BOTTOM_LEFT, BOTTOM_RIGHT.
  destruct (num_lt (Item.x q) _), (num_ge (Item.x q + Item.w q) _),
           (num_lt (Item.y q) _), (num_ge (Item.y q + Item.h q) _);
    cbn [andb]; rewrite ?Hk by lia; reflexivity.
Qed.

Lemma findOverlappingNodes_append (S : Type) (n : Node.t) (q : Item.t)
    (V : nat -> list Item.t) (f : Item.t -> S -> S) (its : list Item.t) (s : S) :
  forEach (its ++ Node.findOverlappingNodes n q (fun dir acc => acc ++ V dir) []) f s =
  Node.findOverlappingNodes n q (fun dir s => forEach (V dir) f s) (forEach its f s).
Proof.
  rewrite !findOverlappingNodes_tests. cbv zeta.
  destruct (num_lt (Item.x q) _), (num_ge (Item.x q + Item.w q) _),
           (num_lt (Item.y q) _), (num_ge (Item.y q + Item.h q) _);
    cbn [andb app]; rewrite ?forEach_app; reflexivity.
Qed.

(** On a well-formed tree [retrieve] returns, leaves the node as it was,
    and has run the callback on the items of [visit], in that order. *)
Lemma retrieve_visit (I S : Type) (cb : option I -> Item.t -> S -> S)
    (inst : option I) (q : Item.t) (n : Node.t) :
  well_formed n = true ->
  forall s, Node.retrieve cb inst n q s =
            Some (n, forEach (visit n q) (fun el s => cb inst el s) s).
Proof.
  induction n as [n IH] using node_induction. intros Hwf s.
  rewrite retrieve_step, visit_step.
  destruct (Node.nodes n) as [| c0 cs] eqn:E; [rewrite app_nil_r; reflexivity |].
  assert (Hne : Node.nodes n <> []) by congruence.
  destruct (well_formed_internal n Hwf Hne) as (Hlen & _ & Hall).
  rewrite <- E in *. clear E c0 cs.
  rewrite findOverlappingNodes_append.
  apply findOverlappingNodes_run. intros dir s' Hdir.
  destruct (nth_error_some _ (Node.nodes n) dir ltac:(lia)) as (c & Hc).
  rewrite nth_error_map, Hc. cbn [option_map].
  assert (Hin : In c (Node.nodes n)) by (eapply nth_error_In; eauto).
  rewrite Forall_forall in IH.
  rewrite (IH c Hin) by (apply Hall; assumption).
  rewrite (store_same _ _ _ _ Hc), set_nodes_same.
  rewrite (nth_map_some _ _ (fun c => visit c q) _ _ _ [] Hc). reflexivity.
Qed.

Lemma forEach_collect (vis acc : list Item.t) :
  forEach vis (fun el acc => acc ++ [el]) acc = acc ++ vis.
Proof.
  revert acc. induction vis as [| a vis IH]; intros acc.
  - simpl. rewrite app_nil_r. reflexivity.
  - rewrite forEach_cons, IH, <- app_assoc. reflexivity.
Qed.

Lemma retrieve_visits (n : Node.t) (q : Item.t) :
  well_formed n = true -> visits n q (visit n q).
Proof. intros Hwf I S cb inst s. apply retrieve_visit. assumption. Qed.

Lemma visits_collect (n : Node.t) (q : Item.t) (vis : list Item.t) :
  visits n q vis -> collect n q = Some (n, vis).
Proof.
  intros H. unfold collect. rewrite (H unit (list Item.t)).
  rewrite forEach_collect. reflexivity.
Qed.

Lemma results_visit (n : Node.t) (q : Item.t) :
  well_formed n = true -> results n q = visit n q.
Proof.
  intros Hwf. unfold results.
  rewrite (visits_collect n q (visit n q) (retrieve_visits n q Hwf)). reflexivity.
Qed.

Lemma findOverlappingNodes_concat (n : Node.t) (q : Item.t) (V : nat -> list Item.t) :
  Node.findOverlappingNodes n q (fun dir acc => acc ++ V dir) [] =
  (if overlaps n q TOP_LEFT then V TOP_LEFT else [])
  ++ (if overlaps n q BOTTOM_LEFT then V BOTTOM_LEFT else [])
  ++ (if overlaps n q TOP_RIGHT then V TOP_RIGHT else [])
  ++ (if overlaps n q BOTTOM_RIGHT then V BOTTOM_RIGHT else []).
Proof.
  rewrite findOverlappingNodes_tests. cbv zeta.
  unfold overlaps, TOP_LEFT, TOP_RIGHT, BOTTOM_LEFT, BOTTOM_RIGHT.
  destruct (num_lt (Item.x q) _), (num_ge (Item.x q + Item.w q) _),
           (num_lt (Item.y q) _), (num_ge (Item.y q + Item.h q) _);
    cbn [andb app]; rewrite ?app_nil_r, <- ?app_assoc; reflexivity.
Qed.

(** The visit of a node with its four subnodes named. *)
Lemma visit_four (n tl tr bl br : Node.t) (q : Item.t) :
  Node.nodes n = [tl; tr; bl; br] ->
  visit n q =
  Node.items n
  ++ (if overlaps n q TOP_LEFT then visit tl q else [])
  ++ (if overlaps n q BOTTOM_LEFT then visit bl q else [])
  ++ (if overlaps n q TOP_RIGHT then visit tr q else [])
  ++ (if overlaps n q BOTTOM_RIGHT then visit br q else []).
Proof.
  intros E. rewrite visit_step, E, findOverlappingNodes_concat. reflexivity.
Qed.

Lemma four_nodes (n : Node.t) :
  well_formed n = true -> Node.nodes n <> [] ->
  exists tl tr bl br, Node.nodes n = [tl; tr; bl; br].
Proof.
  intros Hwf Hne. destruct (well_formed_internal n Hwf Hne) as (Hlen & _).
  destruct (Node.nodes n) as [| a [| b [| c [| d [| e l]]]]]; try discriminate.
  eauto.
Qed.

Lemma visit_leaf (n : Node.t) (q : Item.t) :
  Node.nodes n = [] -> visit n q = Node.items n.
Proof. intros E. rewrite visit_step, E. apply app_nil_r. Qed.

Lemma visit_own (n : Node.t) (q : Item.t) (x : Item.t) :
  In x (Node.items n) -> In x (visit n q).
Proof. intros H. rewrite visit_step. apply in_or_app. auto. Qed.

Lemma visit_child (n : Node.t) (q : Item.t) (i : nat) (c : Node.t) (x : Item.t) :
  nth_error (Node.nodes n) i = Some c -> overlaps n q i = true ->
  In x (visit c q) -> In x (visit n q).
Proof.
  intros Hc Ho Hx. rewrite visit_step.
  destruct (Node.nodes n) as [| c0 cs] eqn:E; [destruct i; discriminate |].
  rewrite <- E in *. rewrite findOverlappingNodes_concat.
  apply in_or_app. right.
  assert (Hv : nth i (map (fun c => visit c q) (Node.nodes n)) [] = visit c q)
    by (apply (nth_map_some _ _ (fun c => visit c q)); assumption).
  unfold TOP_LEFT, TOP_RIGHT, BOTTOM_LEFT, BOTTOM_RIGHT.
  destruct i as [| [| [| [| i]]]]; [| | | | discriminate];
    rewrite Ho, Hv; repeat (apply in_or_app; auto; right).
Qed.

(** ** Where [insert] puts an item, [retrieve] looks for it *)

Lemma findInsertNode_overlaps (n : Node.t) (item : Item.t) :
  0 <= Item.w item -> 0 <= Item.h item ->
  Node.findInsertNode n item <> PARENT ->
  overlaps n item (Node.findInsertNode n item) = true.
Proof.
  intros Hw Hh. unfold Node.findInsertNode.
  fold (Node.midX n). fold (Node.midY n).
  num_case (num_lt (Item.x item + Item.w item) (Node.midX n));
    [| num_case (num_ge (Item.x item) (Node.midX n)); [| congruence]];
    (num_case (num_lt (Item.y item + Item.h item) (Node.midY n));
     [| num_case (num_ge (Item.y item) (Node.midY n)); [| congruence]]);
    intros _; unfold overlaps, TOP_LEFT, TOP_RIGHT, BOTTOM_LEFT, BOTTOM_RIGHT;
    apply andb_true_iff; split;
    first [apply num_lt_true; lra | apply num_ge_true; lra].
Qed.

Lemma nth_error_store (A : Type) (l : list A) (i : nat) (c c' : A) :
  nth_error l i = Some c -> nth_error (store i c' l) i = Some c'.
Proof.
  revert i. induction l as [| a l IH]; intros [| i] H; simpl in *; try discriminate; auto.
Qed.

Lemma overlaps_frame (n n' : Node.t) (q : Item.t) (dir : nat) :
  frame n = frame n' -> overlaps n q dir = overlaps n' q dir.
Proof.
  intros F. apply frame_fields in F. destruct F as (_ & _ & Fx & Fy & Fw & Fh & _).
  unfold overlaps, Node.midX, Node.midY. rewrite Fx, Fy, Fw, Fh. reflexivity.
Qed.

Lemma findInsertNode_frame (n n' : Node.t) (item : Item.t) :
  frame n = frame n' -> Node.findInsertNode n item = Node.findInsertNode n' item.
Proof.
  intros F. apply frame_fields in F. destruct F as (_ & _ & Fx & Fy & Fw & Fh & _).
  unfold Node.findInsertNode. rewrite Fx, Fy, Fw, Fh. reflexivity.
Qed.

Lemma frame_set_nodes (n : Node.t) (ns : list Node.t) :
  frame (Node.set_nodes n ns) = frame n.
Proof. destruct n; reflexivity. Qed.

Lemma frame_set_items (n : Node.t) (its : list Item.t) :
  frame (Node.set_items n its) = frame n.
Proof. destruct n; reflexivity. Qed.

Lemma nodes_set_nodes (n : Node.t) (ns : list Node.t) :
  Node.nodes (Node.set_nodes n ns) = ns.
Proof. destruct n; reflexivity. Qed.

Lemma items_set_nodes (n : Node.t) (ns : list Node.t) :
  Node.items (Node.set_nodes n ns) = Node.items n.
Proof. destruct n; reflexivity. Qed.

Lemma nodes_set_items (n : Node.t) (its : list Item.t) :
  Node.nodes (Node.set_items n its) = Node.nodes n.
Proof. destruct n; reflexivity. Qed.

Lemma items_set_items (n : Node.t) (its : list Item.t) :
  Node.items (Node.set_items n its) = its.
Proof. destruct n; reflexivity. Qed.

(** After [insert] has returned, a visit with the item as the query meets
    the item. *)
Lemma insert_visit (fuel : nat) (n : Node.t) (item : Item.t) (n' : Node.t) :
  Node.insert fuel n item = Some n' ->
  0 <= Item.w item -> 0 <= Item.h item -> In item (visit n' item).
Proof.
  revert fuel n item n'.
  apply (insert_inv (fun _ item n' =>
           0 <= Item.w item -> 0 <= Item.h item -> In item (visit n' item))).
  - intros n item _ _ _ _. apply visit_own. unfold Node.push_item.
    rewrite items_set_items. apply in_or_app. right. left. reflexivity.
  - intros n item c c' _ Hp Hc IH Hw Hh.
    apply visit_child with (i := Node.findInsertNode n item) (c := c').
    + rewrite nodes_set_nodes. eapply nth_error_store; eauto.
    + rewrite (overlaps_frame _ n) by apply frame_set_nodes.
      apply findInsertNode_overlaps; assumption.
    + auto.
  - intros n item _ _ _ _. apply visit_own. unfold Node.push_item.
    rewrite items_set_items. apply in_or_app. right. left. reflexivity.
  - intros n item n' _ _ Hc Hw Hh.
    apply chain_last in Hc. destruct Hc as (m & _ & Hlast). auto.
Qed.

(** C1, containment.  On every well-formed tree, [insert] of an item whose
    width and height are not negative returns, and a [retrieve] of the tree
    it leaves, with the item's own rectangle as the query, runs the callback
    on a sequence of items in which the item occurs.  It holds wherever the
    item lies, inside the region of the tree or not. *)
Theorem containment (n : Node.t) (item : Item.t) (fuel : nat) :
  well_formed n = true ->
  0 <= Item.w item -> 0 <= Item.h item ->
  (enough n <= fuel)%nat ->
  exists n' vis,
    Node.insert fuel n item = Some n'
    /\ visits n' item vis
    /\ In item vis.
Proof.
  intros Hwf Hw Hh Hfuel.
  destruct (insert_total n item fuel Hwf Hfuel) as (n' & Hins).
  exists n', (visit n' item). split; [assumption | split].
  - apply retrieve_visits. destruct (insert_keeps _ _ _ _ Hins) as (_ & W & _). auto.
  - eapply insert_visit; eauto.
Qed.

Lemma containment_witness :
  exists n' vis,
    Node.insert 9 (Node.new 0 0 100 100 0 2 4) (Item.mk 10 10 5 5) = Some n'
    /\ visits n' (Item.mk 10 10 5 5) vis
    /\ In (Item.mk 10 10 5 5) vis.
Proof.
  apply (containment (Node.new 0 0 100 100 0 2 4) (Item.mk 10 10 5 5) 9).
  - reflexivity.
  - unfold Qle; simpl; lia.
  - unfold Qle; simpl; lia.
  - vm_compute; lia.
Defined.

(** ** [insert] neither loses nor duplicates items *)

Lemma all_items_step (n : Node.t) :
  all_items n = Node.items n ++ flat_map all_items (Node.nodes n).
Proof. destruct n; reflexivity. Qed.

Lemma all_items_push (n : Node.t) (item : Item.t) :
  Permutation (all_items (Node.push_item n item)) (all_items n ++ [item]).
Proof.
  rewrite !all_items_step. unfold Node.push_item.
  rewrite items_set_items, nodes_set_items, <- !app_assoc.
  apply Permutation_app_head, Permutation_app_comm.
Qed.

Lemma chain_all_items (R : Node.t -> Item.t -> Node.t -> Prop) :
  (forall a el b, R a el b -> Permutation (all_items b) (all_items a ++ [el])) ->
  forall n l n', chain R n l n' -> Permutation (all_items n') (all_items n ++ l).
Proof.
  intros HR n l n' Hc. induction Hc as [n | n el m l n' Hr Hc IH].
  - rewrite app_nil_r. reflexivity.
  - rewrite IH, (HR _ _ _ Hr), <- app_assoc. reflexivity.
Qed.

Lemma all_items_quartered (n : Node.t) :
  Node.nodes n = [] -> all_items (quartered n) = [].
Proof. intros E. rewrite all_items_step. unfold quartered. cbn. rewrite E. reflexivity. Qed.

(** After [insert] has returned, the tree holds the items it held and the
    new one. *)
Lemma insert_all_items (fuel : nat) (n : Node.t) (item : Item.t) (n' : Node.t) :
  Node.insert fuel n item = Some n' ->
  Permutation (all_items n') (all_items n ++ [item]).
Proof.
  revert fuel n item n'.
  apply (insert_inv (fun n item n' => Permutation (all_items n') (all_items n ++ [item]))).
  - intros n item _ _. apply all_items_push.
  - intros n item c c' _ _ Hc IH.
    destruct (store_split _ _ _ c c' Hc) as (l1 & l2 & E & E' & _).
    rewrite (all_items_step (Node.set_nodes _ _)), (all_items_step n).
    rewrite nodes_set_nodes, items_set_nodes, E', E.
    rewrite !flat_map_app. cbn [flat_map]. rewrite IH, <- !app_assoc.
    do 3 apply Permutation_app_head. apply Permutation_app_comm.
  - intros n item _ _. apply all_items_push.
  - intros n item n' Hn _ Hc.
    apply chain_all_items in Hc; [| auto].
    rewrite all_items_quartered in Hc
      by (unfold Node.push_item; rewrite nodes_set_items; assumption).
    rewrite Hc, all_items_step, Hn. cbn [flat_map app]. rewrite app_nil_r. reflexivity.
Qed.

Lemma insert_each_all_items (fuel : nat) (l : list Item.t) (n n' : Node.t) :
  insert_each fuel n l = Some n' ->
  Permutation (all_items n') (all_items n ++ l).
Proof.
  intros H.
  apply (insert_each_chain
           (fun a el b => Permutation (all_items b) (all_items a ++ [el]))) in H.
  - apply chain_all_items in H; auto.
  - apply insert_all_items.
Qed.

(** ** The index *)

Lemma QUAD_insert_array (fuel : nat) (t : QUAD.t) (l : list Item.t) :
  QUAD.insert fuel t (QUAD.Array l) =
  option_map QUAD.mk (insert_each fuel (QUAD.root t) l).
Proof.
  destruct t as [r]. unfold QUAD.insert, insert_each. cbn [QUAD.root].
  revert r. induction l as [| el l IH]; intros r; [reflexivity |].
  rewrite !forEach_cons. cbn [QUAD.root].
  destruct (Node.insert fuel r el) as [r' |]; [apply IH |].
  rewrite (forEach_none _ _
             (fun this el => match Node.insert fuel (QUAD.root this) el with
                             | Some r => Some (QUAD.mk r)
                             | None => None
                             end)).
  rewrite (forEach_none _ _ (fun this el => Node.insert fuel this el)).
  reflexivity.
Qed.

Lemma constructor_root (args : QUAD.Args) :
  QUAD.root (snd (QUAD.constructor args)) =
  Node.new (QUAD.x args) (QUAD.y args) (QUAD.w args) (QUAD.h args) 0
           (or_default (QUAD.maxChildren args) 2) (or_default (QUAD.maxDepth args) 4).
Proof. reflexivity. Qed.

Lemma new_well_formed (x y w h : Q) (d mc md : Z) :
  well_formed (Node.new x y w h d mc md) = true.
Proof. reflexivity. Qed.

(** C2 as it is stated fails on a root region without width and height:
    three items to the upper left of the region go to the top-left
    quadrants, and the query that is the region of the root, [(0, 0, 0, 0)],
    is only passed on to the bottom-right ones; it visits no item. *)
Lemma no_loss_fails_on_empty_region :
  exists t,
    QUAD.insert 9 (snd (QUAD.constructor (QUAD.mkArgs 0 0 0 0 (Some 2%Z) (Some 4%Z))))
                (QUAD.Array [Item.mk (-5) (-5) 1 1; Item.mk (-4) (-4) 1 1;
                             Item.mk (-3) (-3) 1 1]) = Some t
    /\ Node.nodes (QUAD.root t) <> []
    /\ collect (QUAD.root t) (Item.mk 0 0 0 0) = Some (QUAD.root t, [])
    /\ ~ Permutation []
         [Item.mk (-5) (-5) 1 1; Item.mk (-4) (-4) 1 1; Item.mk (-3) (-3) 1 1].
Proof.
  eexists. split; [vm_compute; reflexivity |].
  split; [discriminate |].
  split; [vm_compute; reflexivity |].
  intros H. apply Permutation_nil in H. discriminate.
Qed.

(** ** The order of the calls of [retrieve] *)

Lemma visit_column_order (n : Node.t) (q : Item.t) :
  well_formed n = true -> visit n q = column_order n q.
Proof.
  intros Hwf.
  destruct (Node.nodes n) as [| c0 cs] eqn:E.
  - unfold column_order. rewrite E, visit_leaf, app_nil_r by assumption. reflexivity.
  - assert (Hne : Node.nodes n <> []) by congruence.
    destruct (four_nodes n Hwf Hne) as (tl & tr & bl & br & E4).
    destruct (well_formed_internal n Hwf Hne) as (_ & _ & Hall).
    unfold column_order. rewrite E4. rewrite E4 in Hall.
    rewrite (visit_four n tl tr bl br q E4).
    rewrite !results_visit by (apply Hall; simpl; auto).
    reflexivity.
Qed.

(** C3 as it is stated fails: with one item in the bottom-left quadrant and
    one in the top-right quadrant, the item of the bottom-left quadrant is
    visited before the item of the top-right quadrant. *)
Lemma retrieval_order_is_not_row_order :
  exists t,
    QUAD.insert 9 (snd (QUAD.constructor (QUAD.mkArgs 0 0 100 100 (Some 2%Z) (Some 4%Z))))
                (QUAD.Array [Item.mk 0 60 10 10; Item.mk 60 0 10 10; Item.mk 5 5 5 5]) = Some t
    /\ collect (QUAD.root t) (Item.mk 0 0 100 100) =
       Some (QUAD.root t, [Item.mk 5 5 5 5; Item.mk 0 60 10 10; Item.mk 60 0 10 10])
    /\ row_order_of_spec (QUAD.root t) (Item.mk 0 0 100 100) =
       [Item.mk 5 5 5 5; Item.mk 60 0 10 10; Item.mk 0 60 10 10]
    /\ collect (QUAD.root t) (Item.mk 0 0 100 100) <>
       Some (QUAD.root t, row_order_of_spec (QUAD.root t) (Item.mk 0 0 100 100)).
Proof.
  eexists. split; [vm_compute; reflexivity |].
  split; [vm_compute; reflexivity |].
  split; [vm_compute; reflexivity |].
  vm_compute. discriminate.
Qed.

(** ** Leaves at the depth limit *)

Lemma set_items_twice (n : Node.t) (a b : list Item.t) :
  Node.set_items (Node.set_items n a) b = Node.set_items n b.
Proof. destruct n; reflexivity. Qed.

(** A leaf that is not above its depth limit takes every item and stays a
    leaf. *)
Lemma leaf_at_limit (l : list Item.t) (n : Node.t) (fuel : nat) :
  Node.nodes n = [] -> (Node.maxDepth n <= Node.depth n)%Z -> (1 <= fuel)%nat ->
  insert_each fuel n l = Some (Node.set_items n (Node.items n ++ l)).
Proof.
  intros Hn Hd Hfuel. destruct fuel as [| fuel]; [lia |]. clear Hfuel.
  unfold insert_each. revert n Hn Hd.
  induction l as [| el l IH]; intros n Hn Hd.
  - simpl. rewrite app_nil_r. destruct n; reflexivity.
  - rewrite forEach_cons, insert_step, Hn.
    assert (Hno : must_divide (Node.push_item n el) = false).
    { unfold must_divide. apply andb_false_iff. right. apply Z.ltb_ge.
      destruct n; assumption. }
    rewrite Hno, IH.
    + unfold Node.push_item. rewrite set_items_twice, items_set_items, <- app_assoc.
      reflexivity.
    + unfold Node.push_item. rewrite nodes_set_items. assumption.
    + destruct n; assumption.
Qed.

(** C4, scenario C, for a root whose [maxDepth] is 0 or less.  Any number
    of insertions into an index with such a root returns and leaves the root
    a leaf whose [items] are the inserted items, in the order of their
    insertion. *)
Theorem root_at_limit_never_divides (x y w h : Q) (mc md : Z)
    (l : list Item.t) (fuel : nat) :
  (md <= 0)%Z -> (1 <= fuel)%nat ->
  QUAD.insert fuel (QUAD.mk (Node.new x y w h 0 mc md)) (QUAD.Array l) =
  Some (QUAD.mk (Node.set_items (Node.new x y w h 0 mc md) l)).
Proof.
  intros Hmd Hfuel. rewrite QUAD_insert_array. cbn [QUAD.root].
  rewrite leaf_at_limit by (auto; reflexivity). reflexivity.
Qed.

Lemma root_at_limit_never_divides_witness :
  QUAD.insert 1 (QUAD.mk (Node.new 0 0 100 100 0 2 0))
    (QUAD.Array [Item.mk 0 0 10 10; Item.mk 60 60 10 10; Item.mk 5 5 5 5]) =
  Some (QUAD.mk (Node.set_items (Node.new 0 0 100 100 0 2 0)
                   [Item.mk 0 0 10 10; Item.mk 60 60 10 10; Item.mk 5 5 5 5])).
Proof.
  apply (root_at_limit_never_divides 0 0 100 100 2 0
           [Item.mk 0 0 10 10; Item.mk 60 60 10 10; Item.mk 5 5 5 5] 1); lia.
Defined.

(** C4 as it is stated fails: the constructor takes [maxDepth: 0] for a
    missing value and gives the root the default 4, and the third insertion
    divides the root. *)
Lemma constructed_with_maxDepth_0_divides :
  exists t,
    QUAD.insert 9 (snd (QUAD.constructor (QUAD.mkArgs 0 0 100 100 (Some 2%Z) (Some 0%Z))))
                (QUAD.Array [Item.mk 0 0 10 10; Item.mk 60 60 10 10; Item.mk 5 5 5 5]) = Some t
    /\ Node.maxDepth (QUAD.root t) = 4%Z
    /\ length (Node.nodes (QUAD.root t)) = 4%nat
    /\ Node.items (QUAD.root t) = [].
Proof.
  eexists. split; [vm_compute; reflexivity |].
  split; [reflexivity |]. split; reflexivity.
Qed.

(** ** The depth of the nodes of a well-formed tree *)

Lemma all_nodes_step (n : Node.t) :
  all_nodes n = n :: flat_map all_nodes (Node.nodes n).
Proof. destruct n; reflexivity. Qed.

(** ** Items held at the node they straddle *)

Lemma chain_retains (n : Node.t) (l : list Item.t) (n' : Node.t) :
  chain retains n l n' ->
  frame n = frame n'
  /\ forall s, Node.findInsertNode n s = PARENT ->
       count_occ Item.eq_dec (Node.items n') s =
       (count_occ Item.eq_dec (Node.items n) s + count_occ Item.eq_dec l s)%nat.
Proof.
  intros Hc. induction Hc as [n | n el m l n' (F & Hr) Hc (F' & IH)].
  - split; [reflexivity |]. intros s _. simpl. lia.
  - split; [congruence |]. intros s Hs.
    rewrite IH by (rewrite <- (findInsertNode_frame n m s F); assumption).
    rewrite (Hr s Hs).
    change (el :: l) with ([el] ++ l). rewrite (count_occ_app Item.eq_dec [el] l). lia.
Qed.

Lemma insert_retains (fuel : nat) (n : Node.t) (item : Item.t) (n' : Node.t) :
  Node.insert fuel n item = Some n' -> retains n item n'.
Proof.
  revert fuel n item n'. apply (insert_inv retains).
  - intros n item _ _. split.
    + unfold Node.push_item. symmetry. apply frame_set_items.
    + intros s _. unfold Node.push_item.
      rewrite items_set_items. apply count_occ_app.
  - intros n item c c' _ Hp _ _. split.
    + symmetry. apply frame_set_nodes.
    + intros s Hs. rewrite items_set_nodes.
      assert (Hneq : item <> s) by congruence.
      cbn [count_occ]. destruct (Item.eq_dec item s); [contradiction | lia].
  - intros n item _ _. split.
    + unfold Node.push_item. symmetry. apply frame_set_items.
    + intros s _. unfold Node.push_item.
      rewrite items_set_items. apply count_occ_app.
  - intros n item n' _ _ Hc. apply chain_retains in Hc. destruct Hc as (F & Hc).
    assert (Fq : frame n = frame (quartered (Node.push_item n item)))
      by (destruct n; reflexivity).
    split; [congruence |].
    intros s Hs. rewrite Hc by (rewrite <- (findInsertNode_frame _ _ s Fq); assumption).
    unfold quartered. cbn [Node.items count_occ].
    rewrite (count_occ_app Item.eq_dec). reflexivity.
Qed.

Lemma insert_each_retains (fuel : nat) (l : list Item.t) (n n' : Node.t) :
  insert_each fuel n l = Some n' ->
  forall s, Node.findInsertNode n s = PARENT ->
    count_occ Item.eq_dec (Node.items n') s =
    (count_occ Item.eq_dec (Node.items n) s + count_occ Item.eq_dec l s)%nat.
Proof.
  intros H. apply (insert_each_chain retains) in H.
  - apply chain_retains in H. apply H.
  - apply insert_retains.
Qed.

(** An item that crosses a midline of a node is classified [PARENT]. *)
Lemma straddles_parent (n : Node.t) (s : Item.t) :
  straddles n s -> Node.findInsertNode n s = PARENT.
Proof.
  unfold straddles, Node.findInsertNode.
  fold (Node.midX n). fold (Node.midY n). intros Hs.
  num_case (num_lt (Item.x s + Item.w s) (Node.midX n));
    num_case (num_lt (Item.y s + Item.h s) (Node.midY n));
    num_case (num_ge (Item.y s) (Node.midY n));
    num_case (num_ge (Item.x s) (Node.midX n));
    try reflexivity; exfalso; destruct Hs as [[H1 H2] | [H1 H2]]; lra.
Qed.

(** A visit meets the items of the node itself, and no item more often than
    the tree holds it. *)
Lemma visit_count (n : Node.t) (q s : Item.t) :
  well_formed n = true ->
  (count_occ Item.eq_dec (Node.items n) s <= count_occ Item.eq_dec (visit n q) s
   <= count_occ Item.eq_dec (all_items n) s)%nat.
Proof.
  induction n as [n IH] using node_induction. intros Hwf.
  rewrite Forall_forall in IH.
  destruct (Node.nodes n) as [| c0 cs] eqn:E.
  - rewrite visit_leaf, all_items_step, E by assumption.
    cbn [flat_map]. rewrite app_nil_r. lia.
  - assert (Hne : Node.nodes n <> []) by congruence.
    destruct (four_nodes n Hwf Hne) as (tl & tr & bl & br & E4).
    destruct (well_formed_internal n Hwf Hne) as (_ & _ & Hall).
    rewrite <- E in IH. clear E c0 cs.
    rewrite (visit_four n tl tr bl br _ E4), all_items_step, E4.
    cbn [flat_map]. rewrite app_nil_r.
    rewrite E4 in IH, Hall.
    assert (Hc : forall c b, In c [tl; tr; bl; br] ->
               (count_occ Item.eq_dec (if b : bool then visit c q else []) s
                <= count_occ Item.eq_dec (all_items c) s)%nat).
    { intros c b Hc. destruct b; [| simpl; lia].
      apply IH; auto. apply Hall; assumption. }
    pose proof (Hc tl (overlaps n q TOP_LEFT) ltac:(simpl; auto)).
    pose proof (Hc tr (overlaps n q TOP_RIGHT) ltac:(simpl; auto)).
    pose proof (Hc bl (overlaps n q BOTTOM_LEFT) ltac:(simpl; auto)).
    pose proof (Hc br (overlaps n q BOTTOM_RIGHT) ltac:(simpl; auto)).
    rewrite !(count_occ_app Item.eq_dec). lia.
Qed.

(** C6, straddle retention.  On a well-formed node, [insert] of an item
    that the node classifies [PARENT] returns, and the item is in the node's
    own [items]; it still is after any further sequence of insertions.  When
    the item was not in the tree before and is not inserted again, it then
    occurs once in the [items] of the node and once in the whole tree, and
    every [retrieve] on the node visits it once. *)
Theorem straddle_retention (n : Node.t) (s : Item.t) (l : list Item.t) (fuel : nat) :
  well_formed n = true ->
  Node.findInsertNode n s = PARENT ->
  (enough n <= fuel)%nat ->
  exists n1 n2,
    Node.insert fuel n s = Some n1
    /\ insert_each fuel n1 l = Some n2
    /\ In s (Node.items n1)
    /\ In s (Node.items n2)
    /\ (~ In s (all_items n) -> ~ In s l ->
        count_occ Item.eq_dec (Node.items n2) s = 1%nat
        /\ count_occ Item.eq_dec (all_items n2) s = 1%nat
        /\ forall q vis, visits n2 q vis -> count_occ Item.eq_dec vis s = 1%nat).
Proof.
  intros Hwf Hs Hfuel.
  destruct (insert_total n s fuel Hwf Hfuel) as (n1 & H1).
  destruct (insert_keeps _ _ _ _ H1) as (F1 & W1 & _).
  destruct (insert_each_total l n1 fuel (W1 Hwf)) as (n2 & H2);
    [rewrite <- (enough_frame _ _ F1); assumption |].
  destruct (insert_each_keeps _ _ _ _ H2) as (F2 & W2 & _).
  destruct (insert_retains _ _ _ _ H1) as (_ & R1). specialize (R1 s Hs).
  assert (Hs1 : Node.findInsertNode n1 s = PARENT)
    by (rewrite <- (findInsertNode_frame n n1 s F1); assumption).
  pose proof (insert_each_retains _ _ _ _ H2 s Hs1) as R2.
  assert (Hself : count_occ Item.eq_dec [s] s = 1%nat).
  { cbn [count_occ]. destruct (Item.eq_dec s s); [reflexivity | contradiction]. }
  rewrite Hself in R1.
  exists n1, n2. split; [assumption | split; [assumption |]].
  split; [apply (count_occ_In Item.eq_dec); lia |].
  split; [apply (count_occ_In Item.eq_dec); lia |].
  intros Hfresh Hl.
  assert (Hown : count_occ Item.eq_dec (Node.items n) s = 0%nat).
  { apply count_occ_not_In. intros Hin. apply Hfresh.
    rewrite all_items_step. apply in_or_app. auto. }
  assert (Hall : count_occ Item.eq_dec (all_items n2) s = 1%nat).
  { pose proof (insert_each_all_items _ _ _ _ H2) as P2.
    pose proof (insert_all_items _ _ _ _ H1) as P1.
    rewrite (proj1 (Permutation_count_occ Item.eq_dec _ _) P2 s).
    rewrite (count_occ_app Item.eq_dec).
    rewrite (proj1 (Permutation_count_occ Item.eq_dec _ _) P1 s).
    rewrite (count_occ_app Item.eq_dec), Hself.
    rewrite (proj1 (count_occ_not_In Item.eq_dec _ _) Hfresh).
    rewrite (proj1 (count_occ_not_In Item.eq_dec _ _) Hl). reflexivity. }
  assert (Hitems : count_occ Item.eq_dec (Node.items n2) s = 1%nat).
  { rewrite R2, R1, Hown, (proj1 (count_occ_not_In Item.eq_dec _ _) Hl). reflexivity. }
  split; [assumption | split; [assumption |]].
  intros q vis Hvis.
  assert (Evis : vis = visit n2 q).
  { pose proof (visits_collect _ _ _ Hvis) as C1.
    pose proof (visits_collect _ _ _ (retrieve_visits n2 q (W2 (W1 Hwf)))) as C2.
    congruence. }
  subst vis.
  pose proof (visit_count n2 q s (W2 (W1 Hwf))). lia.
Qed.

Lemma straddle_retention_witness :
  exists n1 n2,
    Node.insert 9 (Node.new 0 0 100 100 0 2 4) (Item.mk 45 10 20 5) = Some n1
    /\ insert_each 9 n1 [Item.mk 0 0 10 10; Item.mk 60 60 10 10; Item.mk 5 5 5 5] = Some n2
    /\ In (Item.mk 45 10 20 5) (Node.items n1)
    /\ In (Item.mk 45 10 20 5) (Node.items n2)
    /\ (~ In (Item.mk 45 10 20 5) (all_items (Node.new 0 0 100 100 0 2 4)) ->
        ~ In (Item.mk 45 10 20 5)
             [Item.mk 0 0 10 10; Item.mk 60 60 10 10; Item.mk 5 5 5 5] ->
        count_occ Item.eq_dec (Node.items n2) (Item.mk 45 10 20 5) = 1%nat
        /\ count_occ Item.eq_dec (all_items n2) (Item.mk 45 10 20 5) = 1%nat
        /\ forall q vis, visits n2 q vis ->
             count_occ Item.eq_dec vis (Item.mk 45 10 20 5) = 1%nat).
Proof.
  apply (straddle_retention (Node.new 0 0 100 100 0 2 4) (Item.mk 45 10 20 5)
           [Item.mk 0 0 10 10; Item.mk 60 60 10 10; Item.mk 5 5 5 5] 9).
  - reflexivity.
  - reflexivity.
  - vm_compute; lia.
Defined.

(** ** [clear] *)

Lemma clear_step (n : Node.t) :
  Node.clear n =
  (Node.set_nodes (Node.set_items n []) [],
   flat_map (fun r => fst r :: snd r) (map Node.clear (Node.nodes n))).
Proof. destruct n; reflexivity. Qed.

Lemma clear_emptied (n : Node.t) :
  Node.clear n = (emptied n, map emptied (flat_map all_nodes (Node.nodes n))).
Proof.
  induction n as [n IH] using node_induction.
  rewrite clear_step. f_equal.
  induction IH as [| c cs Hc _ IHcs]; [reflexivity |].
  cbn [map flat_map]. rewrite IHcs, Hc, map_app. cbn [fst snd].
  rewrite (all_nodes_step c). reflexivity.
Qed.

(** C7, clear.  After [clear] the node has no items and no subnodes, and so
    has every node that was below it; each of them has the frame ([x], [y],
    [w], [h], [depth], [maxChildren], [maxDepth]) it had.  A second [clear]
    changes nothing, and every [retrieve] on the cleared node returns
    without a call of the callback.  [QUAD.clear] does this to the root. *)
Theorem clear_empties_everything (n : Node.t) (q : Item.t) :
  Node.items (fst (Node.clear n)) = []
  /\ Node.nodes (fst (Node.clear n)) = []
  /\ frame (fst (Node.clear n)) = frame n
  /\ Forall (fun m => Node.items m = [] /\ Node.nodes m = []) (snd (Node.clear n))
  /\ map frame (snd (Node.clear n)) = map frame (flat_map all_nodes (Node.nodes n))
  /\ Node.clear (fst (Node.clear n)) = (fst (Node.clear n), [])
  /\ visits (fst (Node.clear n)) q []
  /\ QUAD.root (QUAD.clear (QUAD.mk n)) = fst (Node.clear n).
Proof.
  rewrite clear_emptied. cbn [fst snd].
  split; [reflexivity | split; [reflexivity | split; [reflexivity |]]].
  split.
  { apply Forall_forall. intros m Hm. apply in_map_iff in Hm.
    destruct Hm as (m0 & <- & _). split; reflexivity. }
  split.
  { rewrite map_map. apply map_ext. intros m. reflexivity. }
  split; [reflexivity |].
  split.
  { intros I S cb inst s. rewrite retrieve_visit by reflexivity. reflexivity. }
  unfold QUAD.clear. cbn [QUAD.root]. rewrite clear_emptied. reflexivity.
Qed.

(** ** A node with subnodes is not divided again *)

Lemma insert_parent (n : Node.t) (item : Item.t) (fuel : nat) :
  Node.nodes n <> [] -> Node.findInsertNode n item = PARENT ->
  Node.insert (S fuel) n item = Some (Node.push_item n item).
Proof.
  intros Hne Hp. rewrite insert_step.
  destruct (Node.nodes n) as [| c0 cs]; [congruence |].
  rewrite Hp. reflexivity.
Qed.

Lemma insert_internal_nodes (n : Node.t) (item : Item.t) (fuel : nat) (n' : Node.t) :
  Node.nodes n <> [] -> Node.insert fuel n item = Some n' ->
  length (Node.nodes n') = length (Node.nodes n).
Proof.
  intros Hne H. destruct fuel as [| fuel]; [discriminate |].
  rewrite insert_step in H.
  destruct (Node.nodes n) as [| c0 cs] eqn:E; [congruence |].
  destruct (Nat.eqb (Node.findInsertNode n item) PARENT).
  - injection H as <-. unfold Node.push_item. rewrite nodes_set_items, E. reflexivity.
  - rewrite <- E in H.
    destruct (nth_error (Node.nodes n) (Node.findInsertNode n item)) as [c |];
      [| discriminate].
    destruct (Node.insert fuel c item) as [c' |]; [| discriminate].
    injection H as <-. rewrite nodes_set_nodes, store_length, E. reflexivity.
Qed.

(** C8.  A node that has subnodes keeps the number of its subnodes in every
    [insert] that returns: it is not divided again.  Any sequence of items
    that it classifies [PARENT] is appended to its [items], whatever
    [maxChildren] is, and its subnodes are left as they were. *)
Theorem internal_node_is_not_divided (n : Node.t) (l : list Item.t) (fuel : nat) :
  Node.nodes n <> [] ->
  Forall (fun item => Node.findInsertNode n item = PARENT) l ->
  (1 <= fuel)%nat ->
  insert_each fuel n l = Some (Node.set_items n (Node.items n ++ l))
  /\ forall item fuel' n',
       Node.insert fuel' n item = Some n' ->
       length (Node.nodes n') = length (Node.nodes n).
Proof.
  intros Hne Hl Hfuel. split.
  - destruct fuel as [| fuel]; [lia |]. clear Hfuel.
    unfold insert_each. revert n Hne Hl.
    induction l as [| el l IH]; intros n Hne Hl.
    + simpl. rewrite app_nil_r. destruct n; reflexivity.
    + inversion Hl as [| ? ? Hel Hl']; subst.
      rewrite forEach_cons, insert_parent by assumption.
      rewrite IH.
      * unfold Node.push_item.
        rewrite set_items_twice, items_set_items, <- app_assoc. reflexivity.
      * unfold Node.push_item. rewrite nodes_set_items. assumption.
      * eapply Forall_impl; [| exact Hl']. intros a Ha.
        rewrite <- Ha. symmetry. apply findInsertNode_frame.
        unfold Node.push_item. symmetry. apply frame_set_items.
  - intros item fuel' n' H. eapply insert_internal_nodes; eauto.
Qed.

Lemma internal_node_is_not_divided_witness :
  insert_each 1 (quartered (Node.new 0 0 100 100 0 2 4))
    [Item.mk 45 10 20 5; Item.mk 45 20 20 5; Item.mk 45 30 20 5] =
  Some (Node.set_items (quartered (Node.new 0 0 100 100 0 2 4))
          (Node.items (quartered (Node.new 0 0 100 100 0 2 4))
           ++ [Item.mk 45 10 20 5; Item.mk 45 20 20 5; Item.mk 45 30 20 5]))
  /\ forall item fuel' n',
       Node.insert fuel' (quartered (Node.new 0 0 100 100 0 2 4)) item = Some n' ->
       length (Node.nodes n') = length (Node.nodes (quartered (Node.new 0 0 100 100 0 2 4))).
Proof.
  apply (internal_node_is_not_divided (quartered (Node.new 0 0 100 100 0 2 4))
           [Item.mk 45 10 20 5; Item.mk 45 20 20 5; Item.mk 45 30 20 5] 1).
  - discriminate.
  - repeat constructor.
  - lia.
Defined.

(** ** [retrieve] does not write *)

(** Whatever the tree, a [retrieve] that returns has left the node as it
    was. *)
Lemma retrieve_same (I S : Type) (cb : option I -> Item.t -> S -> S)
    (inst : option I) (q : Item.t) (n : Node.t) :
  forall s n' s', Node.retrieve cb inst n q s = Some (n', s') -> n' = n.
Proof.
  induction n as [n IH] using node_induction. intros s n' s' H.
  rewrite Forall_forall in IH.
  rewrite retrieve_step in H.
  destruct (Node.nodes n) as [| c0 cs] eqn:E; [congruence |].
  rewrite <- E in *. clear E c0 cs.
  match type of H with
  | Node.findOverlappingNodes _ _ ?f _ = _ => set (k := f) in H
  end.
  rewrite findOverlappingNodes_tests in H. cbv zeta in H.
  assert (Hk : forall (b : bool) dir st,
             (st = None \/ exists s, st = Some (n, s)) ->
             ((if b then k dir st else st) = None
              \/ exists s, (if b then k dir st else st) = Some (n, s))).
  { intros b dir st Hst. destruct b; [| assumption].
    destruct Hst as [-> | (s0 & ->)]; [left; reflexivity |].
    unfold k. rewrite nth_error_map.
    destruct (nth_error (Node.nodes n) dir) as [c |] eqn:Ec; [| left; reflexivity].
    cbn [option_map].
    destruct (Node.retrieve cb inst c q s0) as [[c' s1] |] eqn:Er; [| left; reflexivity].
    apply IH in Er; [| eapply nth_error_In; eauto]. subst c'.
    rewrite (store_same _ _ _ _ Ec), set_nodes_same. right. eauto. }
  match type of H with
  | (if ?b4 then k ?d4 (if ?b3 then k ?d3 (if ?b2 then k ?d2 (if ?b1 then k ?d1 ?st0 else _)
                                           else _) else _) else _) = _ =>
    pose proof (Hk b4 d4 _ (Hk b3 d3 _ (Hk b2 d2 _ (Hk b1 d1 st0 (or_intror (ex_intro _ _ eq_refl)))))) as Hfin
  end.
  destruct Hfin as [Hfin | (s1 & Hfin)]; congruence.
Qed.

(** ** The constructor of the index *)

(** C10.  The object passed to the constructor holds, after the call, the
    number 2 for [maxChildren] when that was missing or falsy, and the
    number 4 for [maxDepth] when that was missing or falsy; a value that is
    not falsy is written back as it was, and [x], [y], [w], [h] are not
    assigned. *)
Theorem constructor_writes_defaults (args : QUAD.Args) :
  fst (QUAD.constructor args) =
  QUAD.mkArgs (QUAD.x args) (QUAD.y args) (QUAD.w args) (QUAD.h args)
    (Some (if falsy (QUAD.maxChildren args) then 2%Z
           else QUAD.number (QUAD.maxChildren args)))
    (Some (if falsy (QUAD.maxDepth args) then 4%Z
           else QUAD.number (QUAD.maxDepth args))).
Proof.
  destruct args as [x y w h [mc |] [md |]];
    unfold QUAD.constructor, or_default, falsy, QUAD.number; cbn;
    repeat match goal with |- context [(?z =? 0)%Z] => destruct (z =? 0)%Z end;
    reflexivity.
Qed.

(** ** Properties that hold at every node of a tree *)

Lemma everywhere_step (P : Node.t -> Prop) (n : Node.t) :
  everywhere P n <-> P n /\ Forall (everywhere P) (Node.nodes n).
Proof.
  destruct n as [its ns mc md x y w h d]. cbn [everywhere Node.nodes].
  apply and_iff_compat_l.
  induction ns as [| c cs IH]; [split; auto |].
  rewrite Forall_cons_iff, <- IH. reflexivity.
Qed.

Lemma everywhere_all_nodes (P : Node.t -> Prop) (n : Node.t) :
  everywhere P n -> forall m, In m (all_nodes n) -> P m.
Proof.
  induction n as [n IH] using node_induction. intros He m Hm.
  rewrite Forall_forall in IH.
  apply everywhere_step in He. destruct He as (Hn & Hbelow).
  rewrite Forall_forall in Hbelow.
  rewrite all_nodes_step in Hm. destruct Hm as [<- | Hm]; [assumption |].
  apply in_flat_map in Hm. destruct Hm as (c & Hc & Hm). eauto.
Qed.

Lemma everywhere_leaf (P : Node.t -> Prop) (n : Node.t) :
  Node.nodes n = [] -> P n -> everywhere P n.
Proof.
  intros E Hn. apply everywhere_step. rewrite E. auto.
Qed.

Lemma nth_error_store_other (A : Type) (l : list A) (i j : nat) (v : A) :
  i <> j -> nth_error (store i v l) j = nth_error l j.
Proof.
  revert i j. induction l as [| a l IH]; intros [| i] [| j] H; simpl; auto;
    try contradiction.
Qed.

Lemma Forall_store (A : Type) (P : A -> Prop) (l : list A) (i : nat) (v : A) :
  Forall P l -> P v -> Forall P (store i v l).
Proof.
  intros Hl Hv. apply Forall_forall. intros a Ha.
  apply store_In in Ha. destruct Ha as [-> | Ha]; [assumption |].
  rewrite Forall_forall in Hl. auto.
Qed.

Lemma quartered_nodes (n : Node.t) :
  Node.nodes n = [] -> Node.nodes (quartered n) = quadrants n.
Proof. intros E. unfold quartered, quadrants. cbn [Node.nodes]. rewrite E. reflexivity. Qed.

(** A property of single nodes that the four steps of [insert] keep is kept
    at every node by every call of [insert] that returns. *)
Lemma insert_everywhere (P : Node.t -> Prop) :
  (forall n item,
      Node.nodes n <> [] -> Node.findInsertNode n item = PARENT ->
      P n -> P (Node.push_item n item)) ->
  (forall n item c c',
      Node.nodes n <> [] -> Node.findInsertNode n item <> PARENT ->
      nth_error (Node.nodes n) (Node.findInsertNode n item) = Some c ->
      frame c = frame c' ->
      Permutation (all_items c') (all_items c ++ [item]) ->
      P n ->
      P (Node.set_nodes n (store (Node.findInsertNode n item) c' (Node.nodes n)))) ->
  (forall n item,
      Node.nodes n = [] -> must_divide (Node.push_item n item) = false ->
      P n -> P (Node.push_item n item)) ->
  (forall n item,
      Node.nodes n = [] -> must_divide (Node.push_item n item) = true ->
      P n ->
      P (quartered (Node.push_item n item))
      /\ Forall P (quadrants (Node.push_item n item))) ->
  forall fuel n item n',
    Node.insert fuel n item = Some n' -> everywhere P n -> everywhere P n'.
Proof.
  intros Hparent Hchild Hleaf Hdivide.
  induction fuel as [| fuel IH]; intros n item n' Hins He; [discriminate |].
  rewrite insert_step in Hins.
  apply everywhere_step in He. destruct He as (Hn & Hbelow).
  destruct (Node.nodes n) as [| c0 cs] eqn:Ens.
  - destruct (must_divide (Node.push_item n item)) eqn:Ed.
    + rewrite divide_quartered in Hins.
      apply (forEach_chain (fun m el r => everywhere P m -> everywhere P r))
        in Hins; [| intros; eapply IH; eauto].
      pose proof (chain_compose (fun a b => everywhere P a -> everywhere P b)
                    (fun a Ha => Ha) (fun a b c Hab Hbc Ha => Hbc (Hab Ha))
                    _ _ _ Hins) as Hk.
      apply Hk. destruct (Hdivide n item Ens Ed Hn) as (Hq & Hqs).
      apply everywhere_step. split; [assumption |].
      rewrite quartered_nodes
        by (unfold Node.push_item; rewrite nodes_set_items; assumption).
      apply Forall_forall. intros c Hc. apply everywhere_leaf.
      * unfold quadrants in Hc.
        destruct Hc as [<- | [<- | [<- | [<- | []]]]]; reflexivity.
      * rewrite Forall_forall in Hqs. auto.
    + injection Hins as <-. apply everywhere_leaf; auto.
  - assert (Hne : Node.nodes n <> []) by (rewrite Ens; discriminate).
    rewrite <- Ens in *. clear Ens c0 cs.
    destruct (Nat.eqb (Node.findInsertNode n item) PARENT) eqn:Ep.
    + injection Hins as <-. apply Nat.eqb_eq in Ep.
      apply everywhere_step. split; [auto |].
      unfold Node.push_item. rewrite nodes_set_items. assumption.
    + apply Nat.eqb_neq in Ep.
      destruct (nth_error (Node.nodes n) (Node.findInsertNode n item)) as [c |] eqn:En;
        [| discriminate].
      destruct (Node.insert fuel c item) as [c' |] eqn:Ec; [| discriminate].
      injection Hins as <-.
      destruct (insert_keeps _ _ _ _ Ec) as (F & _ & _).
      pose proof (insert_all_items _ _ _ _ Ec) as Pc.
      apply everywhere_step. split; [eauto |].
      rewrite nodes_set_nodes. apply Forall_store; [assumption |].
      apply (IH _ _ _ Ec). rewrite Forall_forall in Hbelow.
      apply Hbelow. eapply nth_error_In; eauto.
Qed.

Lemma insert_each_preserves (Inv : Node.t -> Prop) :
  (forall fuel n item n', Node.insert fuel n item = Some n' -> Inv n -> Inv n') ->
  forall fuel l n n', insert_each fuel n l = Some n' -> Inv n -> Inv n'.
Proof.
  intros Hins fuel l n n' H.
  apply (insert_each_chain (fun a _ b => Inv a -> Inv b)) in H;
    [| intros; eapply Hins; eauto].
  exact (chain_compose (fun a b => Inv a -> Inv b)
           (fun a Ha => Ha) (fun a b c Hab Hbc Ha => Hbc (Hab Ha)) _ _ _ H).
Qed.

Lemma quadrants_leaves (n c : Node.t) :
  In c (quadrants n) -> Node.nodes c = [] /\ Node.items c = [] /\ all_items c = [].
Proof.
  unfold quadrants. intros [<- | [<- | [<- | [<- | []]]]]; repeat split.
Qed.

Lemma items_push_item (n : Node.t) (item : Item.t) :
  Node.items (Node.push_item n item) = Node.items n ++ [item].
Proof. destruct n; reflexivity. Qed.

Lemma nodes_push_item (n : Node.t) (item : Item.t) :
  Node.nodes (Node.push_item n item) = Node.nodes n.
Proof. destruct n; reflexivity. Qed.

Lemma findInsertNode_push (n : Node.t) (item s : Item.t) :
  Node.findInsertNode (Node.push_item n item) s = Node.findInsertNode n s.
Proof. apply findInsertNode_frame. unfold Node.push_item. apply frame_set_items. Qed.

Lemma findInsertNode_set_nodes (n : Node.t) (ns : list Node.t) (s : Item.t) :
  Node.findInsertNode (Node.set_nodes n ns) s = Node.findInsertNode n s.
Proof. apply findInsertNode_frame. apply frame_set_nodes. Qed.

(** [insert] keeps every item at the node that its classification names. *)
Lemma insert_sorted (fuel : nat) (n : Node.t) (item : Item.t) (n' : Node.t) :
  Node.insert fuel n item = Some n' ->
  everywhere sorted_here n -> everywhere sorted_here n'.
Proof.
  revert fuel n item n'. apply insert_everywhere.
  - intros n item Hne Hp Hn _. destruct (Hn Hne) as (Hown & Hsub).
    rewrite items_push_item, nodes_push_item. split.
    + intros s Hs. rewrite findInsertNode_push.
      apply in_app_or in Hs. destruct Hs as [Hs | [<- | []]]; auto.
    + intros i c s Hc Hs. rewrite findInsertNode_push. eauto.
  - intros n item c c' Hne Hp Hc F Pc Hn _. destruct (Hn Hne) as (Hown & Hsub).
    rewrite items_set_nodes, nodes_set_nodes. split.
    + intros s Hs. rewrite findInsertNode_set_nodes. auto.
    + intros j c'' s Hj Hs. rewrite findInsertNode_set_nodes.
      destruct (Nat.eq_dec (Node.findInsertNode n item) j) as [<- | Hneq].
      * rewrite (nth_error_store _ _ _ c c' Hc) in Hj. injection Hj as <-.
        apply (Permutation_in _ Pc) in Hs.
        apply in_app_or in Hs. destruct Hs as [Hs | [<- | []]]; eauto.
      * rewrite nth_error_store_other in Hj by assumption. eauto.
  - intros n item Hn _ _ Hne. exfalso. apply Hne.
    unfold Node.push_item. rewrite nodes_set_items. assumption.
  - intros n item Hn _ _. split.
    + intros _. split.
      * intros s [].
      * intros i c s Hc Hs.
        rewrite quartered_nodes in Hc
          by (unfold Node.push_item; rewrite nodes_set_items; assumption).
        apply nth_error_In in Hc. apply quadrants_leaves in Hc.
        destruct Hc as (_ & _ & Hall). rewrite Hall in Hs. destruct Hs.
    + apply Forall_forall. intros c Hc Hne.
      apply quadrants_leaves in Hc. destruct Hc as (Hc & _). contradiction.
Qed.

(** [insert] leaves no leaf that may still be divided with more than
    [maxChildren] items. *)
Lemma insert_capped (fuel : nat) (n : Node.t) (item : Item.t) (n' : Node.t) :
  Node.insert fuel n item = Some n' ->
  everywhere capped_here n -> everywhere capped_here n'.
Proof.
  revert fuel n item n'. apply insert_everywhere.
  - intros n item Hne _ _ Hleaf. exfalso. apply Hne.
    unfold Node.push_item in Hleaf. rewrite nodes_set_items in Hleaf. assumption.
  - intros n item c c' _ _ Hc _ _ _ Hleaf. exfalso.
    rewrite nodes_set_nodes in Hleaf.
    apply (nth_error_store _ _ _ c c') in Hc. rewrite Hleaf in Hc.
    destruct (Node.findInsertNode n item); discriminate.
  - intros n item _ Hd _ _ Hlt. unfold must_divide in Hd.
    apply andb_false_iff in Hd. destruct Hd as [Hd | Hd].
    + rewrite Z.gtb_ltb in Hd. apply Z.ltb_ge in Hd. lia.
    + apply Z.ltb_ge in Hd. lia.
  - intros n item Hn _ _. split.
    + intros Hleaf. exfalso.
      rewrite quartered_nodes in Hleaf
        by (unfold Node.push_item; rewrite nodes_set_items; assumption).
      discriminate.
    + apply Forall_forall. intros c Hc _ _.
      apply quadrants_leaves in Hc. destruct Hc as (_ & -> & _). simpl. lia.
Qed.

Lemma emptied_frame (c c' : Node.t) : frame c = frame c' -> emptied c = emptied c'.
Proof.
  intros F. apply frame_fields in F.
  destruct F as (F1 & F2 & F3 & F4 & F5 & F6 & F7).
  unfold emptied. rewrite F1, F2, F3, F4, F5, F6, F7. reflexivity.
Qed.

Lemma quadrants_frame (n n' : Node.t) : frame n = frame n' -> quadrants n = quadrants n'.
Proof.
  intros F. apply frame_fields in F.
  destruct F as (F1 & F2 & F3 & F4 & F5 & F6 & F7).
  unfold quadrants. rewrite F1, F2, F3, F4, F5, F6, F7. reflexivity.
Qed.

Lemma map_store_same (A B : Type) (f : A -> B) (l : list A) (i : nat) (c c' : A) :
  nth_error l i = Some c -> f c' = f c -> map f (store i c' l) = map f l.
Proof.
  intros Hc Hf. destruct (store_split _ l i c c' Hc) as (l1 & l2 & -> & -> & _).
  rewrite !map_app. cbn [map]. rewrite Hf. reflexivity.
Qed.

(** [insert] leaves the subnodes of every node the quadrants of the node. *)
Lemma insert_tiled (fuel : nat) (n : Node.t) (item : Item.t) (n' : Node.t) :
  Node.insert fuel n item = Some n' ->
  everywhere tiled_here n -> everywhere tiled_here n'.
Proof.
  revert fuel n item n'. apply insert_everywhere.
  - intros n item Hne _ [Hn | Hn]; [contradiction |]. right.
    unfold Node.push_item. rewrite nodes_set_items, Hn.
    apply quadrants_frame. symmetry. apply frame_set_items.
  - intros n item c c' Hne _ Hc F _ [Hn | Hn]; [contradiction |]. right.
    rewrite nodes_set_nodes.
    rewrite (map_store_same _ _ emptied _ _ c c' Hc)
      by (symmetry; apply emptied_frame; assumption).
    rewrite Hn. apply quadrants_frame. symmetry. apply frame_set_nodes.
  - intros n item Hn _ _. left.
    unfold Node.push_item. rewrite nodes_set_items. assumption.
  - intros n item Hn _ _. split.
    + right. rewrite quartered_nodes
        by (unfold Node.push_item; rewrite nodes_set_items; assumption).
      reflexivity.
    + apply Forall_forall. intros c Hc. left.
      apply quadrants_leaves in Hc. apply Hc.
Qed.

(** ** [retrieve] finds what intersects the query *)

Lemma intersects_facts (s q : Item.t) :
  intersects s q = true ->
  Item.x q <= Item.x s + Item.w s /\ Item.x s <= Item.x q + Item.w q
  /\ Item.y q <= Item.y s + Item.h s /\ Item.y s <= Item.y q + Item.h q.
Proof.
  unfold intersects. rewrite !andb_true_iff, !num_ge_true. tauto.
Qed.

(** An item that a node classifies into a quadrant and that intersects the
    query is in a quadrant that [findOverlappingNodes] names for the
    query. *)
Lemma placed_overlaps (n : Node.t) (s q : Item.t) :
  Node.findInsertNode n s <> PARENT -> intersects s q = true ->
  overlaps n q (Node.findInsertNode n s) = true.
Proof.
  intros Hp Hint. apply intersects_facts in Hint.
  destruct Hint as (H1 & H2 & H3 & H4).
  revert Hp. unfold Node.findInsertNode.
  fold (Node.midX n). fold (Node.midY n).
  num_case (num_lt (Item.x s + Item.w s) (Node.midX n));
    [| num_case (num_ge (Item.x s) (Node.midX n)); [| congruence]];
    (num_case (num_lt (Item.y s + Item.h s) (Node.midY n));
     [| num_case (num_ge (Item.y s) (Node.midY n)); [| congruence]]);
    intros _; unfold overlaps, TOP_LEFT, TOP_RIGHT, BOTTOM_LEFT, BOTTOM_RIGHT;
    apply andb_true_iff; split;
    first [apply num_lt_true; lra | apply num_ge_true; lra].
Qed.

(** In a tree whose items are where their classification puts them, a
    visit meets an item that intersects the query as often as the tree
    holds it. *)
Lemma visit_finds (q s : Item.t) (n : Node.t) :
  well_formed n = true -> everywhere sorted_here n -> intersects s q = true ->
  count_occ Item.eq_dec (visit n q) s = count_occ Item.eq_dec (all_items n) s.
Proof.
  induction n as [n IH] using node_induction. intros Hwf He Hint.
  rewrite Forall_forall in IH.
  apply everywhere_step in He. destruct He as (Hn & Hbelow).
  rewrite Forall_forall in Hbelow.
  destruct (Node.nodes n) as [| c0 cs] eqn:E.
  - rewrite visit_leaf, all_items_step, E by assumption.
    cbn [flat_map]. rewrite app_nil_r. reflexivity.
  - assert (Hne : Node.nodes n <> []) by congruence.
    destruct (four_nodes n Hwf Hne) as (tl & tr & bl & br & E4).
    destruct (well_formed_internal n Hwf Hne) as (_ & _ & Hall).
    destruct (Hn Hne) as (_ & Hsub).
    rewrite <- E in IH, Hbelow. clear E c0 cs.
    assert (Hc : forall i c, nth_error (Node.nodes n) i = Some c -> (i < 4)%nat ->
               count_occ Item.eq_dec (if overlaps n q i then visit c q else []) s
               = count_occ Item.eq_dec (all_items c) s).
    { intros i c Hc Hi.
      assert (Hin : In c (Node.nodes n)) by (eapply nth_error_In; eauto).
      destruct (overlaps n q i) eqn:Eo.
      - apply IH; auto. apply Hall; assumption.
      - cbn [count_occ]. symmetry. apply count_occ_not_In. intros Hs.
        pose proof (Hsub i c s Hc Hs) as Hcls.
        assert (Hp : Node.findInsertNode n s <> PARENT) by (unfold PARENT; lia).
        pose proof (placed_overlaps n s q Hp Hint) as Ho.
        rewrite Hcls in Ho. congruence. }
    rewrite (visit_four n tl tr bl br _ E4), all_items_step, E4.
    cbn [flat_map]. rewrite app_nil_r.
    rewrite E4 in Hc.
    pose proof (Hc 0%nat tl eq_refl ltac:(lia)) as C0.
    pose proof (Hc 1%nat tr eq_refl ltac:(lia)) as C1.
    pose proof (Hc 2%nat bl eq_refl ltac:(lia)) as C2.
    pose proof (Hc 3%nat br eq_refl ltac:(lia)) as C3.
    unfold TOP_LEFT, TOP_RIGHT, BOTTOM_LEFT, BOTTOM_RIGHT.
    rewrite !(count_occ_app Item.eq_dec). lia.
Qed.

(** What holds of the root of an index after the insertion of an array into
    a newly constructed index. *)
Lemma constructed_and_filled (args : QUAD.Args) (l : list Item.t) (fuel : nat) :
  (enough (QUAD.root (snd (QUAD.constructor args))) <= fuel)%nat ->
  exists r,
    QUAD.insert fuel (snd (QUAD.constructor args)) (QUAD.Array l) = Some (QUAD.mk r)
    /\ well_formed r = true
    /\ frame r = frame (QUAD.root (snd (QUAD.constructor args)))
    /\ Permutation (all_items r) l
    /\ everywhere sorted_here r
    /\ everywhere capped_here r
    /\ everywhere tiled_here r.
Proof.
  intros Hfuel. rewrite QUAD_insert_array.
  set (r0 := QUAD.root (snd (QUAD.constructor args))) in *.
  assert (Hleaf : Node.nodes r0 = []) by reflexivity.
  destruct (insert_each_total l r0 fuel eq_refl Hfuel) as (r & Hr).
  rewrite Hr. exists r. split; [reflexivity |].
  destruct (insert_each_keeps _ _ _ _ Hr) as (F & W & _).
  split; [auto |]. split; [auto |].
  split; [apply (insert_each_all_items _ _ _ _ Hr) |].
  split; [| split].
  - apply (insert_each_preserves (everywhere sorted_here) insert_sorted _ _ _ _ Hr).
    apply everywhere_leaf; [assumption |]. intros Hne. contradiction.
  - apply (insert_each_preserves (everywhere capped_here) insert_capped _ _ _ _ Hr).
    apply everywhere_leaf; [assumption |]. intros _ _. simpl. lia.
  - apply (insert_each_preserves (everywhere tiled_here) insert_tiled _ _ _ _ Hr).
    apply everywhere_leaf; [assumption |]. left. assumption.
Qed.

(** X1.  After the insertion of any array of items into a newly
    constructed index, a [retrieve] with any query runs the callback on
    every inserted item whose rectangle intersects the rectangle of the
    query, as many times as the item was inserted.  This holds for every
    region of the root and every sign of the widths and heights. *)
Theorem retrieve_finds_what_intersects (args : QUAD.Args) (l : list Item.t)
    (q : Item.t) (fuel : nat) :
  (enough (QUAD.root (snd (QUAD.constructor args))) <= fuel)%nat ->
  exists t vis,
    QUAD.insert fuel (snd (QUAD.constructor args)) (QUAD.Array l) = Some t
    /\ visits (QUAD.root t) q vis
    /\ forall s, intersects s q = true ->
         count_occ Item.eq_dec vis s = count_occ Item.eq_dec l s.
Proof.
  intros Hfuel.
  destruct (constructed_and_filled args l fuel Hfuel)
    as (r & Hins & Hwf & _ & Hperm & Hsorted & _ & _).
  exists (QUAD.mk r), (visit r q). split; [assumption | split].
  - apply retrieve_visits. assumption.
  - intros s Hs. cbn [QUAD.root].
    rewrite (visit_finds q s r Hwf Hsorted Hs).
    apply Permutation_count_occ. assumption.
Qed.

Lemma retrieve_finds_what_intersects_witness :
  exists t vis,
    QUAD.insert 9 (snd (QUAD.constructor (QUAD.mkArgs 0 0 100 100 None None)))
      (QUAD.Array [Item.mk 0 0 10 10; Item.mk 60 60 10 10; Item.mk 5 5 5 5]) = Some t
    /\ visits (QUAD.root t) (Item.mk 0 0 20 20) vis
    /\ forall s, intersects s (Item.mk 0 0 20 20) = true ->
         count_occ Item.eq_dec vis s
         = count_occ Item.eq_dec
             [Item.mk 0 0 10 10; Item.mk 60 60 10 10; Item.mk 5 5 5 5] s.
Proof.
  apply (retrieve_finds_what_intersects (QUAD.mkArgs 0 0 100 100 None None)
           [Item.mk 0 0 10 10; Item.mk 60 60 10 10; Item.mk 5 5 5 5]
           (Item.mk 0 0 20 20) 9).
  vm_compute; lia.
Defined.

(** X2.  After the insertion of any array of items into a newly
    constructed index, a [retrieve] with any query runs the callback on no
    item more often than the item was inserted; it runs it on inserted items
    only. *)
Theorem retrieve_visits_inserted_items_only (args : QUAD.Args) (l : list Item.t)
    (q : Item.t) (fuel : nat) :
  (enough (QUAD.root (snd (QUAD.constructor args))) <= fuel)%nat ->
  exists t vis,
    QUAD.insert fuel (snd (QUAD.constructor args)) (QUAD.Array l) = Some t
    /\ visits (QUAD.root t) q vis
    /\ (forall s, (count_occ Item.eq_dec vis s <= count_occ Item.eq_dec l s)%nat)
    /\ (forall s, In s vis -> In s l).
Proof.
  intros Hfuel.
  destruct (constructed_and_filled args l fuel Hfuel)
    as (r & Hins & Hwf & _ & Hperm & _).
  assert (Hcount : forall s, (count_occ Item.eq_dec (visit r q) s
                              <= count_occ Item.eq_dec l s)%nat).
  { intros s. pose proof (visit_count r q s Hwf) as Hv.
    rewrite (proj1 (Permutation_count_occ Item.eq_dec _ _) Hperm s) in Hv. lia. }
  exists (QUAD.mk r), (visit r q). split; [assumption | split; [| split]].
  - apply retrieve_visits. assumption.
  - assumption.
  - intros s Hs. apply (count_occ_In Item.eq_dec) in Hs.
    apply (count_occ_In Item.eq_dec). specialize (Hcount s). lia.
Qed.

Lemma retrieve_visits_inserted_items_only_witness :
  exists t vis,
    QUAD.insert 9 (snd (QUAD.constructor (QUAD.mkArgs 0 0 100 100 None None)))
      (QUAD.Array [Item.mk 0 0 10 10; Item.mk 60 60 10 10; Item.mk 5 5 5 5]) = Some t
    /\ visits (QUAD.root t) (Item.mk 0 0 20 20) vis
    /\ (forall s, (count_occ Item.eq_dec vis s
                   <= count_occ Item.eq_dec
                        [Item.mk 0 0 10 10; Item.mk 60 60 10 10; Item.mk 5 5 5 5] s)%nat)
    /\ (forall s, In s vis ->
                  In s [Item.mk 0 0 10 10; Item.mk 60 60 10 10; Item.mk 5 5 5 5]).
Proof.
  apply (retrieve_visits_inserted_items_only (QUAD.mkArgs 0 0 100 100 None None)
           [Item.mk 0 0 10 10; Item.mk 60 60 10 10; Item.mk 5 5 5 5]
           (Item.mk 0 0 20 20) 9).
  vm_compute; lia.
Defined.

(** X3.  In the tree that the insertion of any array of items into a newly
    constructed index builds, every node with subnodes holds, in its own
    [items], only items that it classifies [PARENT], and every item held in
    or below its subnode [i] is one that it classifies [i]. *)
Theorem items_are_where_findInsertNode_puts_them (args : QUAD.Args)
    (l : list Item.t) (fuel : nat) :
  (enough (QUAD.root (snd (QUAD.constructor args))) <= fuel)%nat ->
  exists t,
    QUAD.insert fuel (snd (QUAD.constructor args)) (QUAD.Array l) = Some t
    /\ forall m, In m (all_nodes (QUAD.root t)) -> Node.nodes m <> [] ->
         (forall s, In s (Node.items m) -> Node.findInsertNode m s = PARENT)
         /\ forall i c s, nth_error (Node.nodes m) i = Some c -> In s (all_items c) ->
              Node.findInsertNode m s = i.
Proof.
  intros Hfuel.
  destruct (constructed_and_filled args l fuel Hfuel)
    as (r & Hins & _ & _ & _ & Hsorted & _ & _).
  exists (QUAD.mk r). split; [assumption |].
  intros m Hm. exact (everywhere_all_nodes sorted_here r Hsorted m Hm).
Qed.

Lemma items_are_where_findInsertNode_puts_them_witness :
  exists t,
    QUAD.insert 9 (snd (QUAD.constructor (QUAD.mkArgs 0 0 100 100 None None)))
      (QUAD.Array [Item.mk 0 0 10 10; Item.mk 60 60 10 10; Item.mk 45 5 10 5]) = Some t
    /\ forall m, In m (all_nodes (QUAD.root t)) -> Node.nodes m <> [] ->
         (forall s, In s (Node.items m) -> Node.findInsertNode m s = PARENT)
         /\ forall i c s, nth_error (Node.nodes m) i = Some c -> In s (all_items c) ->
              Node.findInsertNode m s = i.
Proof.
  apply (items_are_where_findInsertNode_puts_them (QUAD.mkArgs 0 0 100 100 None None)
           [Item.mk 0 0 10 10; Item.mk 60 60 10 10; Item.mk 45 5 10 5] 9).
  vm_compute; lia.
Defined.

(** X4.  In the tree that the insertion of any array of items into a newly
    constructed index builds, a leaf whose depth is below [maxDepth] holds
    at most [maxChildren] items (none, when [maxChildren] is negative). *)
Theorem leaves_hold_at_most_maxChildren (args : QUAD.Args)
    (l : list Item.t) (fuel : nat) :
  (enough (QUAD.root (snd (QUAD.constructor args))) <= fuel)%nat ->
  exists t,
    QUAD.insert fuel (snd (QUAD.constructor args)) (QUAD.Array l) = Some t
    /\ forall m, In m (all_nodes (QUAD.root t)) ->
         Node.nodes m = [] -> (Node.depth m < Node.maxDepth m)%Z ->
         (Z.of_nat (length (Node.items m)) <= Z.max 0 (Node.maxChildren m))%Z.
Proof.
  intros Hfuel.
  destruct (constructed_and_filled args l fuel Hfuel)
    as (r & Hins & _ & _ & _ & _ & Hcapped & _).
  exists (QUAD.mk r). split; [assumption |].
  intros m Hm. exact (everywhere_all_nodes capped_here r Hcapped m Hm).
Qed.

Lemma leaves_hold_at_most_maxChildren_witness :
  exists t,
    QUAD.insert 9 (snd (QUAD.constructor (QUAD.mkArgs 0 0 100 100 None None)))
      (QUAD.Array [Item.mk 0 0 10 10; Item.mk 60 60 10 10; Item.mk 5 5 5 5]) = Some t
    /\ forall m, In m (all_nodes (QUAD.root t)) ->
         Node.nodes m = [] -> (Node.depth m < Node.maxDepth m)%Z ->
         (Z.of_nat (length (Node.items m)) <= Z.max 0 (Node.maxChildren m))%Z.
Proof.
  apply (leaves_hold_at_most_maxChildren (QUAD.mkArgs 0 0 100 100 None None)
           [Item.mk 0 0 10 10; Item.mk 60 60 10 10; Item.mk 5 5 5 5] 9).
  vm_compute; lia.
Defined.

(** X5.  In the tree that the insertion of any array of items into a newly
    constructed index builds, [getNodes] of a node is [false] for a node
    without subnodes, and is otherwise the array of exactly four nodes that
    have, in the order top-left, top-right, bottom-left, bottom-right, the
    regions of the four quarters of the node, its depth plus one and its
    limits. *)
Theorem getNodes_are_the_quadrants (args : QUAD.Args)
    (l : list Item.t) (fuel : nat) :
  (enough (QUAD.root (snd (QUAD.constructor args))) <= fuel)%nat ->
  exists t,
    QUAD.insert fuel (snd (QUAD.constructor args)) (QUAD.Array l) = Some t
    /\ forall m, In m (all_nodes (QUAD.root t)) ->
         (Node.getNodes m = None /\ Node.nodes m = [])
         \/ exists ns, Node.getNodes m = Some ns
                       /\ ns = Node.nodes m
                       /\ map emptied ns = quadrants m.
Proof.
  intros Hfuel.
  destruct (constructed_and_filled args l fuel Hfuel)
    as (r & Hins & _ & _ & _ & _ & _ & Htiled).
  exists (QUAD.mk r). split; [assumption |].
  intros m Hm.
  pose proof (everywhere_all_nodes tiled_here r Htiled m Hm) as Ht.
  unfold Node.getNodes.
  destruct (Node.nodes m) as [| c0 cs] eqn:E; [left; auto |].
  right. exists (c0 :: cs). split; [reflexivity |].
  split; [reflexivity |].
  destruct Ht as [Ht | Ht]; [congruence | rewrite <- E; assumption].
Qed.

Lemma getNodes_are_the_quadrants_witness :
  exists t,
    QUAD.insert 9 (snd (QUAD.constructor (QUAD.mkArgs 0 0 100 100 None None)))
      (QUAD.Array [Item.mk 0 0 10 10; Item.mk 60 60 10 10; Item.mk 5 5 5 5]) = Some t
    /\ forall m, In m (all_nodes (QUAD.root t)) ->
         (Node.getNodes m = None /\ Node.nodes m = [])
         \/ exists ns, Node.getNodes m = Some ns
                       /\ ns = Node.nodes m
                       /\ map emptied ns = quadrants m.
Proof.
  apply (getNodes_are_the_quadrants (QUAD.mkArgs 0 0 100 100 None None)
           [Item.mk 0 0 10 10; Item.mk 60 60 10 10; Item.mk 5 5 5 5] 9).
  vm_compute; lia.
Defined.

(** ** A query that fits one quadrant *)

Ltac settle_test :=
  first [ apply num_lt_true; lra | apply num_ge_true; lra
        | apply num_lt_false; lra | apply num_ge_false; lra ].

Ltac settle_tests :=
  first [ apply andb_true_iff; split; settle_test
        | apply andb_false_iff; left; settle_test
        | apply andb_false_iff; right; settle_test ].

Lemma directions_overlaps (n : Node.t) (q : Item.t) :
  directions n q =
  (if overlaps n q TOP_LEFT then [TOP_LEFT] else [])
  ++ (if overlaps n q BOTTOM_LEFT then [BOTTOM_LEFT] else [])
  ++ (if overlaps n q TOP_RIGHT then [TOP_RIGHT] else [])
  ++ (if overlaps n q BOTTOM_RIGHT then [BOTTOM_RIGHT] else []).
Proof.
  unfold directions. rewrite findOverlappingNodes_tests. cbv zeta.
  unfold overlaps, TOP_LEFT, TOP_RIGHT, BOTTOM_LEFT, BOTTOM_RIGHT.
  destruct (num_lt (Item.x q) _), (num_ge (Item.x q + Item.w q) _),
           (num_lt (Item.y q) _), (num_ge (Item.y q + Item.h q) _);
    reflexivity.
Qed.

(** A query without negative width and height that a node classifies into
    a quadrant overlaps that quadrant and no other. *)
Lemma fits_one_quadrant (n : Node.t) (q : Item.t) :
  0 <= Item.w q -> 0 <= Item.h q ->
  Node.findInsertNode n q <> PARENT ->
  overlaps n q TOP_LEFT = Nat.eqb (Node.findInsertNode n q) TOP_LEFT
  /\ overlaps n q TOP_RIGHT = Nat.eqb (Node.findInsertNode n q) TOP_RIGHT
  /\ overlaps n q BOTTOM_LEFT = Nat.eqb (Node.findInsertNode n q) BOTTOM_LEFT
  /\ overlaps n q BOTTOM_RIGHT = Nat.eqb (Node.findInsertNode n q) BOTTOM_RIGHT.
Proof.
  intros Hw Hh. unfold Node.findInsertNode.
  fold (Node.midX n). fold (Node.midY n).
  num_case (num_lt (Item.x q + Item.w q) (Node.midX n));
    [| num_case (num_ge (Item.x q) (Node.midX n)); [| congruence]];
    (num_case (num_lt (Item.y q + Item.h q) (Node.midY n));
     [| num_case (num_ge (Item.y q) (Node.midY n)); [| congruence]]);
    intros _; unfold overlaps, TOP_LEFT, TOP_RIGHT, BOTTOM_LEFT, BOTTOM_RIGHT;
    cbn [Nat.eqb]; repeat split; settle_tests.
Qed.

(** X6.  A query without negative width and height that lies in one
    quadrant of a well-formed node (the node classifies it into the
    quadrant [i]) is passed to the subnode [i] and to no other: [retrieve]
    runs the callback on the node's own items and then on what a [retrieve]
    on that subnode yields. *)
Theorem query_in_one_quadrant_visits_one_subnode (n c : Node.t) (q : Item.t) :
  well_formed n = true ->
  0 <= Item.w q -> 0 <= Item.h q ->
  Node.findInsertNode n q <> PARENT ->
  nth_error (Node.nodes n) (Node.findInsertNode n q) = Some c ->
  directions n q = [Node.findInsertNode n q]
  /\ visits n q (Node.items n ++ results c q).
Proof.
  intros Hwf Hw Hh Hp Hc.
  destruct (fits_one_quadrant n q Hw Hh Hp) as (O0 & O1 & O2 & O3).
  assert (Hne : Node.nodes n <> [])
    by (intros E; rewrite E in Hc; destruct (Node.findInsertNode n q); discriminate).
  destruct (four_nodes n Hwf Hne) as (tl & tr & bl & br & E4).
  destruct (well_formed_internal n Hwf Hne) as (_ & _ & Hall).
  assert (Hwc : well_formed c = true) by (apply Hall; eapply nth_error_In; eauto).
  assert (Hi : (Node.findInsertNode n q < 4)%nat).
  { pose proof (findInsertNode_range n q). unfold PARENT in Hp. lia. }
  split.
  - rewrite directions_overlaps, O0, O1, O2, O3.
    unfold TOP_LEFT, TOP_RIGHT, BOTTOM_LEFT, BOTTOM_RIGHT.
    destruct (Node.findInsertNode n q) as [| [| [| [| i]]]]; [| | | | lia]; reflexivity.
  - rewrite results_visit by assumption.
    replace (Node.items n ++ visit c q) with (visit n q);
      [apply retrieve_visits; assumption |].
    rewrite (visit_four n tl tr bl br q E4), O0, O1, O2, O3.
    rewrite E4 in Hc. revert Hc.
    unfold TOP_LEFT, TOP_RIGHT, BOTTOM_LEFT, BOTTOM_RIGHT.
    destruct (Node.findInsertNode n q) as [| [| [| [| i]]]]; [| | | | lia];
      cbn [nth_error Nat.eqb app]; intros Hc; injection Hc as <-;
      rewrite ?app_nil_r; reflexivity.
Qed.

Lemma query_in_one_quadrant_visits_one_subnode_witness :
  directions (quartered (Node.new 0 0 100 100 0 2 4)) (Item.mk 60 0 20 20)
  = [Node.findInsertNode (quartered (Node.new 0 0 100 100 0 2 4)) (Item.mk 60 0 20 20)]
  /\ visits (quartered (Node.new 0 0 100 100 0 2 4)) (Item.mk 60 0 20 20)
       (Node.items (quartered (Node.new 0 0 100 100 0 2 4))
        ++ results (Node.new (0 + 100 / 2) 0 (100 / 2) (100 / 2) (0 + 1) 2 4)
                   (Item.mk 60 0 20 20)).
Proof.
  apply (query_in_one_quadrant_visits_one_subnode
           (quartered (Node.new 0 0 100 100 0 2 4))
           (Node.new (0 + 100 / 2) 0 (100 / 2) (100 / 2) (0 + 1) 2 4)
           (Item.mk 60 0 20 20)).
  - reflexivity.
  - unfold Qle; simpl; lia.
  - unfold Qle; simpl; lia.
  - vm_compute; discriminate.
  - reflexivity.
Defined.

(** X7.  A query without negative width and height is passed on by
    [findOverlappingNodes] to at least one subnode; the directions it names
    are among the four quadrants and none is named twice. *)
Theorem query_reaches_a_subnode (n : Node.t) (q : Item.t) :
  0 <= Item.w q -> 0 <= Item.h q ->
  directions n q <> []
  /\ NoDup (directions n q)
  /\ forall dir, In dir (directions n q) -> (dir < 4)%nat.
Proof.
  intros Hw Hh. rewrite directions_overlaps.
  unfold overlaps, TOP_LEFT, TOP_RIGHT, BOTTOM_LEFT, BOTTOM_RIGHT.
  num_case (num_lt (Item.x q) (Node.midX n));
    num_case (num_ge (Item.x q + Item.w q) (Node.midX n));
    num_case (num_lt (Item.y q) (Node.midY n));
    num_case (num_ge (Item.y q + Item.h q) (Node.midY n));
    cbn [andb app]; try lra;
    (split; [discriminate | split;
       [repeat constructor; simpl; intuition discriminate
       | simpl; intros dir Hd; intuition lia]]).
Qed.

Lemma query_reaches_a_subnode_witness :
  directions (Node.new 0 0 100 100 0 2 4) (Item.mk 40 40 20 20) <> []
  /\ NoDup (directions (Node.new 0 0 100 100 0 2 4) (Item.mk 40 40 20 20))
  /\ forall dir, In dir (directions (Node.new 0 0 100 100 0 2 4) (Item.mk 40 40 20 20)) ->
       (dir < 4)%nat.
Proof.
  apply (query_reaches_a_subnode (Node.new 0 0 100 100 0 2 4) (Item.mk 40 40 20 20)).
  - unfold Qle; simpl; lia.
  - unfold Qle; simpl; lia.
Defined.

(** ** Where [insert] puts an item *)

(** X8.  On a well-formed node with subnodes, [insert] of an item that the
    node classifies into the quadrant [i] returns; it leaves the node's own
    [items] and the other three subnodes as they were, and the subnode [i]
    holds, in or below it, the items it held and the new one. *)
Theorem insert_goes_to_the_classified_subnode (n : Node.t) (item : Item.t) (fuel : nat) :
  well_formed n = true -> Node.nodes n <> [] ->
  Node.findInsertNode n item <> PARENT ->
  (enough n <= fuel)%nat ->
  exists n' c c',
    Node.insert fuel n item = Some n'
    /\ nth_error (Node.nodes n) (Node.findInsertNode n item) = Some c
    /\ nth_error (Node.nodes n') (Node.findInsertNode n item) = Some c'
    /\ Permutation (all_items c') (all_items c ++ [item])
    /\ Node.items n' = Node.items n
    /\ forall j, j <> Node.findInsertNode n item ->
         nth_error (Node.nodes n') j = nth_error (Node.nodes n) j.
Proof.
  intros Hwf Hne Hp Hfuel.
  destruct (well_formed_internal n Hwf Hne) as (Hlen & Hd & Hall).
  assert (Hi : (Node.findInsertNode n item < length (Node.nodes n))%nat).
  { pose proof (findInsertNode_range n item). unfold PARENT in Hp. lia. }
  destruct (nth_error_some _ _ _ Hi) as (c & Hc).
  destruct (Hall c (nth_error_In _ _ Hc)) as (Dc & Mc & _ & Wc).
  destruct fuel as [| fuel]; [unfold enough in Hfuel; lia |].
  destruct (insert_total c item fuel Wc) as (c' & Hc').
  { unfold enough in *. rewrite Dc, Mc. lia. }
  exists (Node.set_nodes n (store (Node.findInsertNode n item) c' (Node.nodes n))), c, c'.
  split.
  { rewrite insert_step.
    destruct (Node.nodes n) as [| c0 cs] eqn:E; [congruence |].
    apply Nat.eqb_neq in Hp. rewrite Hp, Hc, Hc'. reflexivity. }
  split; [assumption |].
  rewrite nodes_set_nodes, items_set_nodes.
  split; [eapply nth_error_store; eauto |].
  split; [eapply insert_all_items; eauto |].
  split; [reflexivity |].
  intros j Hj. apply nth_error_store_other. congruence.
Qed.

Lemma insert_goes_to_the_classified_subnode_witness :
  exists n' c c',
    Node.insert 9 (quartered (Node.new 0 0 100 100 0 2 4)) (Item.mk 60 0 20 20) = Some n'
    /\ nth_error (Node.nodes (quartered (Node.new 0 0 100 100 0 2 4)))
         (Node.findInsertNode (quartered (Node.new 0 0 100 100 0 2 4))
                              (Item.mk 60 0 20 20)) = Some c
    /\ nth_error (Node.nodes n')
         (Node.findInsertNode (quartered (Node.new 0 0 100 100 0 2 4))
                              (Item.mk 60 0 20 20)) = Some c'
    /\ Permutation (all_items c') (all_items c ++ [Item.mk 60 0 20 20])
    /\ Node.items n' = Node.items (quartered (Node.new 0 0 100 100 0 2 4))
    /\ forall j,
         j <> Node.findInsertNode (quartered (Node.new 0 0 100 100 0 2 4))
                                  (Item.mk 60 0 20 20) ->
         nth_error (Node.nodes n') j
         = nth_error (Node.nodes (quartered (Node.new 0 0 100 100 0 2 4))) j.
Proof.
  apply (insert_goes_to_the_classified_subnode
           (quartered (Node.new 0 0 100 100 0 2 4)) (Item.mk 60 0 20 20) 9).
  - reflexivity.
  - discriminate.
  - vm_compute; discriminate.
  - vm_compute; lia.
Defined.

(** X9.  On a well-formed node, [insert] returns and leaves a well-formed
    node with the same region, depth and limits; a node that had subnodes
    still has subnodes; and the node holds, in or below it, the items it
    held and the new one, none lost and none twice. *)
Theorem insert_keeps_the_tree (n : Node.t) (item : Item.t) (fuel : nat) :
  well_formed n = true -> (enough n <= fuel)%nat ->
  exists n',
    Node.insert fuel n item = Some n'
    /\ well_formed n' = true
    /\ frame n' = frame n
    /\ (Node.nodes n <> [] -> Node.nodes n' <> [])
    /\ Permutation (all_items n') (all_items n ++ [item]).
Proof.
  intros Hwf Hfuel.
  destruct (insert_total n item fuel Hwf Hfuel) as (n' & Hins).
  destruct (insert_keeps _ _ _ _ Hins) as (F & W & N).
  exists n'. split; [assumption |]. split; [auto |]. split; [auto |].
  split; [assumption |]. eapply insert_all_items; eauto.
Qed.

Lemma insert_keeps_the_tree_witness :
  exists n',
    Node.insert 9 (quartered (Node.new 0 0 100 100 0 2 4)) (Item.mk 60 0 20 20) = Some n'
    /\ well_formed n' = true
    /\ frame n' = frame (quartered (Node.new 0 0 100 100 0 2 4))
    /\ (Node.nodes (quartered (Node.new 0 0 100 100 0 2 4)) <> [] -> Node.nodes n' <> [])
    /\ Permutation (all_items n')
         (all_items (quartered (Node.new 0 0 100 100 0 2 4)) ++ [Item.mk 60 0 20 20]).
Proof.
  apply (insert_keeps_the_tree (quartered (Node.new 0 0 100 100 0 2 4))
           (Item.mk 60 0 20 20) 9).
  - reflexivity.
  - vm_compute; lia.
Defined.

(** ** The index: construction, insertion of arrays, clearing *)

(** X10.  After the insertion of any array of items into a newly
    constructed index, [clear] gives back the index as the constructor
    built it. *)
Theorem clear_gives_back_the_constructed_index (args : QUAD.Args)
    (l : list Item.t) (fuel : nat) :
  (enough (QUAD.root (snd (QUAD.constructor args))) <= fuel)%nat ->
  exists t,
    QUAD.insert fuel (snd (QUAD.constructor args)) (QUAD.Array l) = Some t
    /\ QUAD.clear t = snd (QUAD.constructor args).
Proof.
  intros Hfuel.
  destruct (constructed_and_filled args l fuel Hfuel) as (r & Hins & _ & F & _).
  exists (QUAD.mk r). split; [assumption |].
  unfold QUAD.clear. cbn [QUAD.root]. rewrite clear_emptied. cbn [fst].
  rewrite (emptied_frame _ _ F). reflexivity.
Qed.

Lemma clear_gives_back_the_constructed_index_witness :
  exists t,
    QUAD.insert 9 (snd (QUAD.constructor (QUAD.mkArgs 0 0 100 100 None None)))
      (QUAD.Array [Item.mk 0 0 10 10; Item.mk 60 60 10 10; Item.mk 5 5 5 5]) = Some t
    /\ QUAD.clear t = snd (QUAD.constructor (QUAD.mkArgs 0 0 100 100 None None)).
Proof.
  apply (clear_gives_back_the_constructed_index (QUAD.mkArgs 0 0 100 100 None None)
           [Item.mk 0 0 10 10; Item.mk 60 60 10 10; Item.mk 5 5 5 5] 9).
  vm_compute; lia.
Defined.

(** X11.  The root that the constructor builds is an empty leaf at depth 0
    with the region of [args]; its [maxChildren] is 2 when that of [args]
    is missing or falsy and the given number otherwise, its [maxDepth] is 4
    when that of [args] is missing or falsy and the given number otherwise.
    Neither limit of a constructed root is ever 0. *)
Theorem constructed_root_limits (args : QUAD.Args) :
  QUAD.root (snd (QUAD.constructor args)) =
  Node.new (QUAD.x args) (QUAD.y args) (QUAD.w args) (QUAD.h args) 0
    (if falsy (QUAD.maxChildren args) then 2%Z else QUAD.number (QUAD.maxChildren args))
    (if falsy (QUAD.maxDepth args) then 4%Z else QUAD.number (QUAD.maxDepth args))
  /\ Node.maxChildren (QUAD.root (snd (QUAD.constructor args))) <> 0%Z
  /\ Node.maxDepth (QUAD.root (snd (QUAD.constructor args))) <> 0%Z
  /\ snd (quad args) = snd (QUAD.constructor args).
Proof.
  destruct args as [x y w h [mc |] [md |]];
    unfold QUAD.constructor, or_default, falsy, QUAD.number, quad; cbn;
    repeat match goal with
           | |- context [(?z =? 0)%Z] =>
             let E := fresh "E" in destruct (z =? 0)%Z eqn:E;
             [| apply Z.eqb_neq in E]
           end;
    repeat split; try assumption; discriminate.
Qed.

(** X12.  [QUAD.insert] of a single item is [QUAD.insert] of the array
    that holds just that item; of the empty array it leaves the index as it
    is; and of an array that is two arrays one after the other it is the
    insertion of the first followed, if that returns, by the insertion of
    the second. *)
Theorem insert_of_arrays (fuel : nat) (t : QUAD.t) (el : Item.t) (l1 l2 : list Item.t) :
  QUAD.insert fuel t (QUAD.Single el) = QUAD.insert fuel t (QUAD.Array [el])
  /\ QUAD.insert fuel t (QUAD.Array []) = Some t
  /\ QUAD.insert fuel t (QUAD.Array (l1 ++ l2)) =
     match QUAD.insert fuel t (QUAD.Array l1) with
     | Some t1 => QUAD.insert fuel t1 (QUAD.Array l2)
     | None => None
     end.
Proof.
  split; [reflexivity | split; [reflexivity |]].
  rewrite !QUAD_insert_array. unfold insert_each. rewrite forEach_app.
  fold (insert_each fuel (QUAD.root t) l1).
  destruct (insert_each fuel (QUAD.root t) l1) as [r |].
  - cbn [option_map]. rewrite QUAD_insert_array. reflexivity.
  - rewrite (forEach_none _ _ (fun this el => Node.insert fuel this el)). reflexivity.
Qed.

(** ** Items inside the region of the root *)

(** An item inside a rectangle intersects it.  Of the sums only
    [x <= x + w] for [0 <= w] is used, and the order of the numbers. *)
Lemma inside_intersects (X Y W H : Q) (s : Item.t) :
  inside X Y W H s = true -> intersects s (Item.mk X Y W H) = true.
Proof.
  unfold inside, intersects. cbn [Item.x Item.y Item.w Item.h].
  rewrite !andb_true_iff, !num_ge_true.
  intros (((((Hw & Hh) & Hx) & Hxw) & Hy) & Hyh).
  repeat split; lra.
Qed.

(** C2, no loss on subdivision, for items inside the region of the root.
    The insertion of any sequence of items that lie inside the region of the
    root (their width and height not negative) into a newly constructed
    index returns, and a [retrieve] whose query is the region of the root
    then runs the callback on a sequence of items that is a rearrangement of
    the inserted sequence: every inserted item is visited, as many times as
    it was inserted, and nothing else is.  The region of the root may have
    any width and height. *)
Theorem no_loss_on_subdivision (args : QUAD.Args) (l : list Item.t) (fuel : nat) :
  forallb (inside (QUAD.x args) (QUAD.y args) (QUAD.w args) (QUAD.h args)) l = true ->
  (enough (QUAD.root (snd (QUAD.constructor args))) <= fuel)%nat ->
  exists t vis,
    QUAD.insert fuel (snd (QUAD.constructor args)) (QUAD.Array l) = Some t
    /\ visits (QUAD.root t)
              (Item.mk (QUAD.x args) (QUAD.y args) (QUAD.w args) (QUAD.h args)) vis
    /\ Permutation vis l.
Proof.
  intros Hin Hfuel.
  destruct (constructed_and_filled args l fuel Hfuel)
    as (r & Hins & Hwf & _ & Hperm & Hsorted & _ & _).
  set (q := Item.mk (QUAD.x args) (QUAD.y args) (QUAD.w args) (QUAD.h args)) in *.
  exists (QUAD.mk r), (visit r q). split; [assumption | split].
  - apply retrieve_visits. assumption.
  - apply (Permutation_count_occ Item.eq_dec). intros s.
    rewrite <- (proj1 (Permutation_count_occ Item.eq_dec _ _) Hperm s).
    destruct (in_dec Item.eq_dec s l) as [Hs | Hs].
    + apply visit_finds; auto. apply inside_intersects.
      rewrite forallb_forall in Hin. auto.
    + assert (H0 : count_occ Item.eq_dec (all_items r) s = 0%nat).
      { apply count_occ_not_In. intros Hs'. apply Hs.
        apply (Permutation_in _ Hperm). assumption. }
      pose proof (visit_count r q s Hwf). lia.
Qed.

Lemma no_loss_on_subdivision_witness :
  exists t vis,
    QUAD.insert 9 (snd (QUAD.constructor (QUAD.mkArgs 0 0 100 100 None None)))
                (QUAD.Array [Item.mk 0 0 10 10; Item.mk 60 60 10 10; Item.mk 5 5 5 5;
                             Item.mk 45 10 20 5]) = Some t
    /\ visits (QUAD.root t) (Item.mk 0 0 100 100) vis
    /\ Permutation vis [Item.mk 0 0 10 10; Item.mk 60 60 10 10; Item.mk 5 5 5 5;
                        Item.mk 45 10 20 5].
Proof.
  apply (no_loss_on_subdivision (QUAD.mkArgs 0 0 100 100 None None)
           [Item.mk 0 0 10 10; Item.mk 60 60 10 10; Item.mk 5 5 5 5;
            Item.mk 45 10 20 5] 9).
  - reflexivity.
  - vm_compute; lia.
Defined.

(** ** The items of a node are in the order of their insertion *)

Lemma subsequence_nil_l (A : Type) (l : list A) : subsequence [] l.
Proof. induction l; constructor; assumption. Qed.

Lemma subsequence_refl (A : Type) (l : list A) : subsequence l l.
Proof. induction l; constructor; assumption. Qed.

Lemma subsequence_trans (A : Type) (l1 l2 l3 : list A) :
  subsequence l1 l2 -> subsequence l2 l3 -> subsequence l1 l3.
Proof.
  intros H12 H23. revert l1 H12.
  induction H23 as [| l2 l3 a H23 IH | l2 l3 a H23 IH]; intros l1 H12.
  - assumption.
  - apply subsequence_skip. auto.
  - inversion H12; subst.
    + apply subsequence_skip. auto.
    + apply subsequence_take. auto.
Qed.

Lemma subsequence_app_r (A : Type) (l1 l2 l : list A) :
  subsequence l1 l2 -> subsequence l1 (l2 ++ l).
Proof.
  intros H. induction H; cbn [app].
  - apply subsequence_nil_l.
  - apply subsequence_skip. assumption.
  - apply subsequence_take. assumption.
Qed.

Lemma subsequence_snoc (A : Type) (l1 l2 : list A) (a : A) :
  subsequence l1 l2 -> subsequence (l1 ++ [a]) (l2 ++ [a]).
Proof.
  intros H. induction H; cbn [app].
  - apply subsequence_take. apply subsequence_nil.
  - apply subsequence_skip. assumption.
  - apply subsequence_take. assumption.
Qed.

Lemma everywhere_impl (P R : Node.t -> Prop) (n : Node.t) :
  (forall m, P m -> R m) -> everywhere P n -> everywhere R n.
Proof.
  intros Himp. induction n as [n IH] using node_induction. intros He.
  apply everywhere_step in He. destruct He as (Hn & Hbelow).
  apply everywhere_step. split; [auto |].
  rewrite Forall_forall in *. auto.
Qed.

Lemma chain_in_order (l : list Item.t) :
  forall m n' L,
    chain (fun a el b =>
             forall L, everywhere (fun k => subsequence (Node.items k) L) a ->
                       everywhere (fun k => subsequence (Node.items k) (L ++ [el])) b)
          m l n' ->
    everywhere (fun k => subsequence (Node.items k) L) m ->
    everywhere (fun k => subsequence (Node.items k) (L ++ l)) n'.
Proof.
  induction l as [| el l IH]; intros m n' L Hc Hm.
  - inversion Hc; subst. rewrite app_nil_r. assumption.
  - inversion Hc as [| ? ? k ? ? Hr Hrest]; subst.
    replace (L ++ el :: l) with ((L ++ [el]) ++ l)
      by (rewrite <- app_assoc; reflexivity).
    apply (IH k); auto.
Qed.

(** Every call of [insert] that returns leaves the items of every node in
    the order of the insertions so far: when they are a subsequence of [L]
    before the call, they are one of [L] followed by the new item after
    it. *)
Lemma insert_in_order (fuel : nat) (n : Node.t) (item : Item.t) (n' : Node.t) :
  Node.insert fuel n item = Some n' ->
  forall L, everywhere (fun k => subsequence (Node.items k) L) n ->
            everywhere (fun k => subsequence (Node.items k) (L ++ [item])) n'.
Proof.
  revert fuel n item n'.
  apply (insert_inv
           (fun n item n' =>
              forall L, everywhere (fun k => subsequence (Node.items k) L) n ->
                        everywhere (fun k => subsequence (Node.items k) (L ++ [item])) n')).
  - intros n item _ _ L He.
    apply everywhere_step in He. destruct He as (Hn & Hbelow).
    apply everywhere_step. rewrite items_push_item, nodes_push_item.
    split; [apply subsequence_snoc; assumption |].
    eapply Forall_impl; [| exact Hbelow].
    intros c. apply everywhere_impl. intros k. apply subsequence_app_r.
  - intros n item c c' _ _ Hc IH L He.
    apply everywhere_step in He. destruct He as (Hn & Hbelow).
    apply everywhere_step. rewrite items_set_nodes, nodes_set_nodes.
    split; [apply subsequence_app_r; assumption |].
    apply Forall_store.
    + eapply Forall_impl; [| exact Hbelow].
      intros k. apply everywhere_impl. intros k'. apply subsequence_app_r.
    + apply IH. rewrite Forall_forall in Hbelow.
      apply Hbelow. eapply nth_error_In; eauto.
  - intros n item Hleaf _ L He.
    apply everywhere_step in He. destruct He as (Hn & _).
    apply everywhere_leaf; [rewrite nodes_push_item; assumption |].
    rewrite items_push_item. apply subsequence_snoc. assumption.
  - intros n item n' Hleaf _ Hc L He.
    apply everywhere_step in He. destruct He as (Hn & _).
    apply (chain_in_order _ _ _ []) in Hc.
    + cbn [app] in Hc. revert Hc. apply everywhere_impl. intros k Hk.
      eapply subsequence_trans; [exact Hk |].
      apply subsequence_snoc. assumption.
    + apply everywhere_step. split; [apply subsequence_nil_l |].
      rewrite quartered_nodes by (rewrite nodes_push_item; assumption).
      apply Forall_forall. intros c Hc'.
      apply quadrants_leaves in Hc'. destruct Hc' as (Hcn & Hci & _).
      apply everywhere_leaf; [assumption |]. rewrite Hci. apply subsequence_nil_l.
Qed.

Lemma insert_each_in_order (fuel : nat) (l : list Item.t) (n n' : Node.t) :
  insert_each fuel n l = Some n' ->
  everywhere (fun k => subsequence (Node.items k) []) n ->
  everywhere (fun k => subsequence (Node.items k) l) n'.
Proof.
  intros H He.
  apply (insert_each_chain
           (fun a el b =>
              forall L, everywhere (fun k => subsequence (Node.items k) L) a ->
                        everywhere (fun k => subsequence (Node.items k) (L ++ [el])) b))
    in H; [| intros; eapply insert_in_order; eauto].
  apply (chain_in_order _ _ _ []) in H; assumption.
Qed.

Lemma well_formed_all_nodes (n : Node.t) :
  well_formed n = true -> forall m, In m (all_nodes n) -> well_formed m = true.
Proof.
  induction n as [n IH] using node_induction. intros Hwf m Hm.
  rewrite Forall_forall in IH.
  rewrite all_nodes_step in Hm. destruct Hm as [<- | Hm]; [assumption |].
  apply in_flat_map in Hm. destruct Hm as (c & Hc & Hm).
  assert (Hne : Node.nodes n <> []) by (intros E; rewrite E in Hc; destruct Hc).
  destruct (well_formed_internal n Hwf Hne) as (_ & _ & Hall).
  apply (IH c Hc); [apply Hall; assumption | assumption].
Qed.

(** C3, the order of retrieval, with the quadrants in the order of the
    code.  In the tree that the insertion of any sequence of items into a
    newly constructed index builds, a [retrieve] on any node, with any
    query, runs the callback on the node's own items first and then on what
    each overlapping subnode yields, the subnodes taken in the order
    top-left, bottom-left, top-right, bottom-right; and the node's own
    items are in the order of their insertion: they are the inserted
    sequence with some of its elements left out. *)
Theorem retrieval_order (args : QUAD.Args) (l : list Item.t) (q : Item.t) (fuel : nat) :
  (enough (QUAD.root (snd (QUAD.constructor args))) <= fuel)%nat ->
  exists t,
    QUAD.insert fuel (snd (QUAD.constructor args)) (QUAD.Array l) = Some t
    /\ forall m, In m (all_nodes (QUAD.root t)) ->
         visits m q (column_order m q)
         /\ subsequence (Node.items m) l.
Proof.
  intros Hfuel.
  destruct (insert_each_total l (QUAD.root (snd (QUAD.constructor args))) fuel
              eq_refl Hfuel) as (r & Hr).
  exists (QUAD.mk r). split; [rewrite QUAD_insert_array, Hr; reflexivity |].
  destruct (insert_each_keeps _ _ _ _ Hr) as (_ & W & _).
  assert (Hord : everywhere (fun k => subsequence (Node.items k) l) r).
  { apply (insert_each_in_order _ _ _ _ Hr).
    apply everywhere_leaf; [reflexivity | constructor]. }
  intros m Hm. cbn [QUAD.root] in Hm. split.
  - pose proof (well_formed_all_nodes r (W eq_refl) m Hm) as Hwm.
    rewrite <- visit_column_order by assumption.
    apply retrieve_visits. assumption.
  - exact (everywhere_all_nodes _ r Hord m Hm).
Qed.

Lemma retrieval_order_witness :
  exists t,
    (QUAD.insert 9 (snd (QUAD.constructor (QUAD.mkArgs 0 0 100 100 (Some 2%Z) (Some 4%Z))))
       (QUAD.Array [Item.mk 45 60 10 10; Item.mk 0 60 10 10; Item.mk 60 0 10 10;
                    Item.mk 45 10 20 5; Item.mk 5 5 5 5]) = Some t
     /\ forall m, In m (all_nodes (QUAD.root t)) ->
          visits m (Item.mk 0 0 100 100) (column_order m (Item.mk 0 0 100 100))
          /\ subsequence (Node.items m)
               [Item.mk 45 60 10 10; Item.mk 0 60 10 10; Item.mk 60 0 10 10;
                Item.mk 45 10 20 5; Item.mk 5 5 5 5])
    /\ column_order (QUAD.root t) (Item.mk 0 0 100 100) =
       [Item.mk 45 60 10 10; Item.mk 45 10 20 5; Item.mk 5 5 5 5;
        Item.mk 0 60 10 10; Item.mk 60 0 10 10].
Proof.
  destruct (retrieval_order (QUAD.mkArgs 0 0 100 100 (Some 2%Z) (Some 4%Z))
              [Item.mk 45 60 10 10; Item.mk 0 60 10 10; Item.mk 60 0 10 10;
               Item.mk 45 10 20 5; Item.mk 5 5 5 5]
              (Item.mk 0 0 100 100) 9) as (t & Hins & Hall).
  - vm_compute; lia.
  - exists t. split; [split; assumption |].
    vm_compute in Hins. injection Hins as <-. vm_compute. reflexivity.
Defined.

(** ** The depth of the nodes of a well-formed tree *)

Lemma well_formed_depths (n : Node.t) :
  well_formed n = true ->
  forall m, In m (all_nodes n) ->
    (Node.depth m <= Z.max (Node.depth n) (Node.maxDepth n))%Z
    /\ Node.maxDepth m = Node.maxDepth n
    /\ ((Node.maxDepth n <= Node.depth m)%Z -> Node.nodes m = []).
Proof.
  induction n as [n IH] using node_induction. intros Hwf m Hm.
  rewrite Forall_forall in IH.
  rewrite all_nodes_step in Hm. destruct Hm as [<- | Hm].
  - split; [lia | split; [reflexivity |]].
    intros Hle. destruct (Node.nodes n) as [| c0 cs] eqn:E; [reflexivity |].
    assert (Hne : Node.nodes n <> []) by congruence.
    destruct (well_formed_internal n Hwf Hne) as (_ & Hlt & _). lia.
  - apply in_flat_map in Hm. destruct Hm as (c & Hc & Hm).
    assert (Hne : Node.nodes n <> []) by (intros E; rewrite E in Hc; destruct Hc).
    destruct (well_formed_internal n Hwf Hne) as (_ & Hlt & Hall).
    destruct (Hall c Hc) as (Dc & Mc & _ & Wc).
    destruct (IH c Hc Wc m Hm) as (H1 & H2 & H3).
    rewrite Mc, Dc in H1. rewrite Mc in H2, H3.
    split; [lia | auto].
Qed.

(** C5, the depth ceiling, for a root whose [maxDepth] is the integer [d].
    After any sequence of insertions into a root built at depth 0 with
    [maxDepth = d], no node of the tree has a depth above [d], or above 0
    when [d] is negative; a node at depth [d] or deeper is a leaf, and any
    further sequence of insertions into it returns and leaves it a leaf that
    holds its items and the new ones, however many they are. *)
Theorem depth_ceiling (x y w h : Q) (mc d : Z) (l : list Item.t) (fuel : nat) :
  (enough (Node.new x y w h 0 mc d) <= fuel)%nat ->
  exists t,
    insert_each fuel (Node.new x y w h 0 mc d) l = Some t
    /\ forall m, In m (all_nodes t) ->
         (Node.depth m <= Z.max 0 d)%Z
         /\ ((d <= Node.depth m)%Z ->
             Node.nodes m = []
             /\ forall l' fuel', (1 <= fuel')%nat ->
                  insert_each fuel' m l' = Some (Node.set_items m (Node.items m ++ l'))).
Proof.
  intros Hfuel.
  destruct (insert_each_total l (Node.new x y w h 0 mc d) fuel) as (t & Ht);
    [reflexivity | assumption |].
  exists t. split; [assumption |].
  destruct (insert_each_keeps _ _ _ _ Ht) as (F & W & _).
  apply frame_fields in F. cbn in F. destruct F as (_ & Fmd & _ & _ & _ & _ & Fd).
  intros m Hm.
  destruct (well_formed_depths t (W eq_refl) m Hm) as (H1 & H2 & H3).
  rewrite <- Fmd in H1, H2, H3. rewrite <- Fd in H1.
  split; [assumption |]. intros Hle.
  split; [auto |]. intros l' fuel' Hfuel'.
  apply leaf_at_limit; auto. lia.
Qed.

Lemma depth_ceiling_witness :
  exists t,
    insert_each 5 (Node.new 0 0 100 100 0 2 2)
      [Item.mk 1 1 1 1; Item.mk 2 2 1 1; Item.mk 3 3 1 1; Item.mk 4 4 1 1] = Some t
    /\ forall m, In m (all_nodes t) ->
         (Node.depth m <= Z.max 0 2)%Z
         /\ ((2 <= Node.depth m)%Z ->
             Node.nodes m = []
             /\ forall l' fuel', (1 <= fuel')%nat ->
                  insert_each fuel' m l' = Some (Node.set_items m (Node.items m ++ l'))).
Proof.
  apply (depth_ceiling 0 0 100 100 2 2
           [Item.mk 1 1 1 1; Item.mk 2 2 1 1; Item.mk 3 3 1 1; Item.mk 4 4 1 1] 5).
  vm_compute; lia.
Defined.

(** C5 as it is stated fails for an index constructed with [maxDepth: 0]:
    the root gets the default 4 and the third insertion creates nodes at
    depth 1.  It fails for [maxDepth: -1] too, where the root itself, at
    depth 0, is deeper than the limit. *)
Lemma depth_ceiling_fails_for_constructed_limits :
  (exists t m,
     QUAD.insert 9 (snd (QUAD.constructor (QUAD.mkArgs 0 0 100 100 (Some 2%Z) (Some 0%Z))))
       (QUAD.Array [Item.mk 0 0 10 10; Item.mk 60 60 10 10; Item.mk 5 5 5 5]) = Some t
     /\ In m (all_nodes (QUAD.root t))
     /\ (0 < Node.depth m)%Z)
  /\ Node.maxDepth
       (QUAD.root (snd (QUAD.constructor (QUAD.mkArgs 0 0 100 100 (Some 2%Z) (Some (-1)%Z)))))
     = (-1)%Z
  /\ (-1 < Node.depth
             (QUAD.root
                (snd (QUAD.constructor (QUAD.mkArgs 0 0 100 100 (Some 2%Z) (Some (-1)%Z))))))%Z.
Proof.
  split; [| split; [reflexivity | reflexivity]].
  eexists. eexists. split; [vm_compute; reflexivity |].
  split; [right; left; reflexivity | reflexivity].
Qed.


(** ** [retrieve] on the heap *)

Lemma height_step (n : Node.t) :
  height n = S (list_max (map height (Node.nodes n))).
Proof. destruct n; reflexivity. Qed.

Lemma height_subnode (n c : Node.t) :
  In c (Node.nodes n) -> (height c < height n)%nat.
Proof.
  intros Hc. rewrite (height_step n).
  pose proof (proj1 (list_max_le (map height (Node.nodes n)) _) (le_n _)) as Hall.
  rewrite Forall_forall in Hall.
  specialize (Hall (height c) (in_map height _ _ Hc)). lia.
Qed.

Lemma represents_step (hp : Heap.heap) (n : Node.t) (a : nat) :
  Heap.represents hp n a <->
  exists o,
    nth_error (Heap.objects hp) a = Some o
    /\ nth_error (Heap.arrays hp) (Heap.items o) = Some (Node.items n)
    /\ Heap.x o = Node.x n /\ Heap.y o = Node.y n
    /\ Heap.w o = Node.w n /\ Heap.h o = Node.h n
    /\ Forall2 (Heap.represents hp) (Node.nodes n) (Heap.nodes o).
Proof.
  destruct n as [its ns mc md x y w h d].
  cbn [Heap.represents Node.items Node.nodes Node.x Node.y Node.w Node.h].
  destruct (nth_error (Heap.objects hp) a) as [o |];
    [| split; [intros [] | intros (o & Ho & _); discriminate]].
  assert (Heach : forall cs addrs,
             (fix each (cs : list Node.t) (addrs : list nat) : Prop :=
                match cs, addrs with
                | [], [] => True
                | c :: cs', b :: addrs' => Heap.represents hp c b /\ each cs' addrs'
                | _, _ => False
                end) cs addrs
             <-> Forall2 (Heap.represents hp) cs addrs).
  { induction cs as [| c cs IH]; intros [| b addrs].
    - split; [constructor | trivial].
    - split; [contradiction | intros H; inversion H].
    - split; [contradiction | intros H; inversion H].
    - split.
      + intros [H1 H2]. constructor; [assumption | apply IH; assumption].
      + intros H. inversion H; subst. split; [assumption | apply IH; assumption]. }
  split.
  - intros (H1 & H2 & H3 & H4 & H5 & H6).
    exists o. rewrite Heach in H6. auto 10.
  - intros (o' & Ho & H1 & H2 & H3 & H4 & H5 & H6).
    injection Ho as <-. rewrite Heach. auto 10.
Qed.

Lemma Forall2_nth_error (A B : Type) (R : A -> B -> Prop) (l1 : list A) (l2 : list B)
    (i : nat) (a : A) :
  Forall2 R l1 l2 -> nth_error l1 i = Some a ->
  exists b, nth_error l2 i = Some b /\ R a b.
Proof.
  intros H. revert i. induction H as [| a0 b0 l1 l2 Hab _ IH]; intros [| i] Hi;
    simpl in *; try discriminate.
  - injection Hi as <-. eauto.
  - auto.
Qed.

Section HeapRetrieve.
Variables I St : Type.
Variable cb : option I -> Item.t -> Heap.heap * St -> Heap.heap * St.
Variable inst : option I.
Hypothesis cb_keeps_heap : forall r el wd, fst (cb r el wd) = fst wd.

Lemma callback_on_heap (hp : Heap.heap) (el : Item.t) (s : St) :
  match inst with
  | Some r => cb (Some r) el (hp, s)
  | None => cb None el (hp, s)
  end = (hp, snd (cb inst el (hp, s))).
Proof.
  replace (match inst with
           | Some r => cb (Some r) el (hp, s)
           | None => cb None el (hp, s)
           end) with (cb inst el (hp, s)) by (destruct inst; reflexivity).
  rewrite (surjective_pairing (cb inst el (hp, s))) at 1.
  rewrite cb_keeps_heap. reflexivity.
Qed.

Lemma forEach_live_untouched (hp : Heap.heap) (arr : nat) (l2 : list Item.t) :
  forall l1 s,
    Heap.array_at arr hp = l1 ++ l2 ->
    Heap.forEach_live cb inst arr (length l1) (length l2) (hp, s)
    = (hp, forEach l2 (fun el s => snd (cb inst el (hp, s))) s).
Proof.
  induction l2 as [| el l2 IH]; intros l1 s Harr; [reflexivity |].
  cbn [length Heap.forEach_live fst]. rewrite Harr.
  rewrite nth_error_app2 by lia. rewrite Nat.sub_diag. cbn [nth_error].
  rewrite callback_on_heap, forEach_cons.
  replace (S (length l1)) with (length (l1 ++ [el]))
    by (rewrite length_app; simpl; lia).
  apply IH. rewrite Harr, <- app_assoc. reflexivity.
Qed.

Lemma heap_findOverlappingNodes (hp : Heap.heap) (a : nat) (o : Heap.object)
    (n : Node.t) (q : Item.t)
    (k : nat -> Heap.heap * St -> option (Heap.heap * St))
    (G : nat -> St -> St) (s : St) :
  nth_error (Heap.objects hp) a = Some o ->
  Heap.x o = Node.x n -> Heap.y o = Node.y n ->
  Heap.w o = Node.w n -> Heap.h o = Node.h n ->
  (forall dir s, (dir < 4)%nat -> k dir (hp, s) = Some (hp, G dir s)) ->
  Heap.findOverlappingNodes a q k (hp, s)
  = Some (hp, Node.findOverlappingNodes n q G s).
Proof.
  intros Ho Hx Hy Hw Hh Hk.
  unfold Heap.findOverlappingNodes, Node.findOverlappingNodes,
    Heap.reading, Heap.and_then.
  unfold TOP_LEFT, TOP_RIGHT, BOTTOM_LEFT, BOTTOM_RIGHT.
  destruct (num_lt (Item.x q) (Node.x n + Node.w n / 2)) eqn:EL;
    destruct (num_ge (Item.x q + Item.w q) (Node.x n + Node.w n / 2)) eqn:ER;
    destruct (num_lt (Item.y q) (Node.y n + Node.h n / 2)) eqn:ET;
    destruct (num_ge (Item.y q + Item.h q) (Node.y n + Node.h n / 2)) eqn:EB;
    repeat (cbn [fst];
            rewrite ?Ho, ?Hx, ?Hy, ?Hw, ?Hh, ?EL, ?ER, ?ET, ?EB, ?Hk by lia);
    reflexivity.
Qed.

(** With a callback that leaves the heap alone, [retrieve] on the heap
    returns, leaves the heap as it was and has run the callback on the
    items that [Node.retrieve] visits, in the same order. *)
Lemma heap_retrieve_visit (hp : Heap.heap) (q : Item.t) (n : Node.t) :
  forall a s fuel,
    Heap.represents hp n a -> well_formed n = true -> (height n <= fuel)%nat ->
    Heap.retrieve cb inst fuel a q (hp, s)
    = Some (hp, forEach (visit n q) (fun el s => snd (cb inst el (hp, s))) s).
Proof.
  induction n as [n IH] using node_induction. intros a s fuel Hrep Hwf Hfuel.
  rewrite Forall_forall in IH.
  apply represents_step in Hrep.
  destruct Hrep as (o & Ho & Harr & Hx & Hy & Hw & Hh & Hsub).
  destruct fuel as [| fuel]; [rewrite height_step in Hfuel; lia |].
  cbn [Heap.retrieve]. unfold Heap.reading at 1. cbn [fst]. rewrite Ho.
  assert (Hat : Heap.array_at (Heap.items o) hp = Node.items n)
    by (unfold Heap.array_at; rewrite Harr; reflexivity).
  rewrite Hat.
  pose proof (forEach_live_untouched hp (Heap.items o) (Node.items n) [] s Hat)
    as Hlive.
  cbn [length] in Hlive. rewrite Hlive. clear Hlive.
  unfold Heap.reading at 1. cbn [fst]. rewrite Ho.
  rewrite visit_step.
  destruct (Node.nodes n) as [| c0 cs] eqn:E.
  - inversion Hsub as [E' |]. rewrite app_nil_r. reflexivity.
  - assert (Hne : Node.nodes n <> []) by congruence.
    destruct (well_formed_internal n Hwf Hne) as (Hlen & _ & Hall).
    rewrite <- E in *. clear E c0 cs.
    destruct (Heap.nodes o) as [| b0 bs] eqn:Eb.
    { inversion Hsub as [E' |]; subst. congruence. }
    rewrite <- Eb in *. clear Eb b0 bs.
    rewrite findOverlappingNodes_append.
    apply heap_findOverlappingNodes with (o := o); auto.
    intros dir s' Hdir.
    unfold Heap.reading. cbn [fst]. rewrite Ho.
    destruct (nth_error_some _ (Node.nodes n) dir ltac:(lia)) as (c & Hc).
    destruct (Forall2_nth_error _ _ _ _ _ dir c Hsub Hc) as (b & Hb & Hcb).
    rewrite Hb.
    assert (Hin : In c (Node.nodes n)) by (eapply nth_error_In; eauto).
    rewrite (IH c Hin b s' fuel Hcb).
    + rewrite (nth_map_some _ _ (fun c => visit c q) _ _ _ [] Hc). reflexivity.
    + apply Hall. assumption.
    + pose proof (height_subnode n c Hin). lia.
Qed.
End HeapRetrieve.

(** C9, [retrieve] is read-only, for a callback that does not itself change
    the tree.  When the objects at and below [a] are a well-formed tree
    and the callback leaves the heap as it is, [Node.retrieve] and
    [QUAD.retrieve] return and leave the heap as it was, the [items] and
    [nodes] of every node with it; the callback has been run on the items
    that a visit of the tree meets, in that order. *)
Theorem retrieve_is_read_only (I St : Type)
    (cb : option I -> Item.t -> Heap.heap * St -> Heap.heap * St)
    (inst : option I) (hp : Heap.heap) (a : nat) (n : Node.t) (q : Item.t)
    (s : St) (fuel : nat) :
  (forall r el wd, fst (cb r el wd) = fst wd) ->
  Heap.represents hp n a -> well_formed n = true -> (height n <= fuel)%nat ->
  Heap.retrieve cb inst fuel a q (hp, s)
  = Some (hp, forEach (visit n q) (fun el s => snd (cb inst el (hp, s))) s)
  /\ Heap.quad_retrieve cb inst fuel a q (hp, s)
     = Some (hp, forEach (visit n q) (fun el s => snd (cb inst el (hp, s))) s).
Proof.
  intros Hcb Hrep Hwf Hfuel. unfold Heap.quad_retrieve.
  rewrite (heap_retrieve_visit I St cb inst Hcb hp q n a s fuel Hrep Hwf Hfuel).
  split; reflexivity.
Qed.

Lemma retrieve_is_read_only_witness :
  Heap.retrieve collecting None 2 sample_root (Item.mk 0 0 100 100) (sample_heap, [])
  = Some (sample_heap,
          forEach (visit sample_tree (Item.mk 0 0 100 100))
                  (fun el s => snd (collecting None el (sample_heap, s))) [])
  /\ Heap.quad_retrieve collecting None 2 sample_root (Item.mk 0 0 100 100)
       (sample_heap, [])
     = Some (sample_heap,
             forEach (visit sample_tree (Item.mk 0 0 100 100))
                     (fun el s => snd (collecting None el (sample_heap, s))) []).
Proof.
  apply (retrieve_is_read_only unit (list Item.t) collecting None
           sample_heap sample_root sample_tree (Item.mk 0 0 100 100) [] 2).
  - intros r el wd. reflexivity.
  - vm_compute. repeat split.
  - reflexivity.
  - vm_compute; lia.
Defined.

(** C9 as it is stated fails for a callback that changes the tree: on a
    root that is a leaf holding one item, a [retrieve] whose callback calls
    [clear()] on the root returns, has run the callback once, and leaves the
    [items] of the root empty. *)
Lemma retrieve_with_a_clearing_callback_empties_the_tree :
  exists hp',
    Heap.retrieve (clearing 0) None 1 0 (Item.mk 0 0 100 100)
      (snd (Heap.alloc (Node.set_items (Node.new 0 0 100 100 0 2 4) [Item.mk 1 1 1 1])
                       (Heap.mkHeap [] [])), [])
    = Some (hp', [Item.mk 1 1 1 1])
    /\ Heap.array_at 0
         (snd (Heap.alloc (Node.set_items (Node.new 0 0 100 100 0 2 4) [Item.mk 1 1 1 1])
                          (Heap.mkHeap [] [])))
       = [Item.mk 1 1 1 1]
    /\ Heap.array_at 0 hp' = []
    /\ hp' <> snd (Heap.alloc (Node.set_items (Node.new 0 0 100 100 0 2 4)
                                 [Item.mk 1 1 1 1])
                              (Heap.mkHeap [] [])).
Proof.
  eexists. split; [vm_compute; reflexivity |].
  split; [reflexivity |]. split; [reflexivity |].
  vm_compute. discriminate.
Qed.

(** ** Items that touch a midline *)

(** X13.  An item whose right edge (the sum [x + w] as [findInsertNode]
    computes it) is on the vertical midline of a node while its left edge is
    left of it, or whose lower edge is on the horizontal midline while its
    upper edge is above it, is classified [PARENT]. *)
Theorem far_edge_on_a_midline_is_parent (n : Node.t) (s : Item.t) :
  (Item.x s + Item.w s == Node.midX n /\ Item.x s < Node.midX n)
  \/ (Item.y s + Item.h s == Node.midY n /\ Item.y s < Node.midY n) ->
  Node.findInsertNode n s = PARENT.
Proof.
  intros Hs. unfold Node.findInsertNode.
  fold (Node.midX n). fold (Node.midY n).
  num_case (num_lt (Item.x s + Item.w s) (Node.midX n));
    num_case (num_lt (Item.y s + Item.h s) (Node.midY n));
    num_case (num_ge (Item.y s) (Node.midY n));
    num_case (num_ge (Item.x s) (Node.midX n));
    try reflexivity; exfalso; destruct Hs as [[H1 H2] | [H1 H2]]; lra.
Qed.

Lemma far_edge_on_a_midline_is_parent_witness :
  Node.findInsertNode (Node.new 0 0 100 100 0 2 4) (Item.mk 40 10 10 10) = PARENT.
Proof.
  apply (far_edge_on_a_midline_is_parent
           (Node.new 0 0 100 100 0 2 4) (Item.mk 40 10 10 10)).
  left. split; reflexivity.
Defined.

(** X14.  An item, of width and height that are not negative, whose left
    edge is on the vertical midline of a node or right of it and whose upper
    edge is on the horizontal midline or below it is classified
    [BOTTOM_RIGHT]: an item that touches the midlines from that side is not
    held at the node. *)
Theorem near_edges_on_the_midlines_go_bottom_right (n : Node.t) (s : Item.t) :
  0 <= Item.w s -> 0 <= Item.h s ->
  Node.midX n <= Item.x s -> Node.midY n <= Item.y s ->
  Node.findInsertNode n s = BOTTOM_RIGHT.
Proof.
  intros Hw Hh Hx Hy. unfold Node.findInsertNode.
  fold (Node.midX n). fold (Node.midY n).
  num_case (num_lt (Item.x s + Item.w s) (Node.midX n));
    num_case (num_lt (Item.y s + Item.h s) (Node.midY n));
    num_case (num_ge (Item.y s) (Node.midY n));
    num_case (num_ge (Item.x s) (Node.midX n));
    try reflexivity; exfalso; lra.
Qed.

Lemma near_edges_on_the_midlines_go_bottom_right_witness :
  Node.findInsertNode (Node.new 0 0 100 100 0 2 4) (Item.mk 50 50 10 10) = BOTTOM_RIGHT.
Proof.
  apply (near_edges_on_the_midlines_go_bottom_right
           (Node.new 0 0 100 100 0 2 4) (Item.mk 50 50 10 10));
    unfold Qle; simpl; lia.
Defined.
